(** * Verification of the in-place incremental stamper (stamp.cpp)

    The development embeds [parseSpec], the output preparation, the batch
    loop of [InplaceIncrementalStamp] and [main] of [src/stamp.cpp], and
    states the properties of the design document about them.

    PDFium and the C/C++ runtime are outside the program.  Their observable
    behaviour is taken as data: a record [Pdfium] answers every library
    call the program makes, and the file system is a finite map from paths
    to byte sequences.  The reader ([IReader], [FileReader], [GetBlock]) is
    only called by the library while it answers, so it has no definition
    of its own here.  The memory probe [Mem] only prints the resident set
    size and is left out. *)

From Stdlib Require Import ZArith String Ascii Lia.
From Stdlib.Strings Require Import Byte.
From stdpp Require Import base numbers list strings gmap sets.

Local Open Scope Z_scope.

(** ** C++ values and control *)

Module Cpp.

(** [int] is a 32-bit two's complement integer. *)
Definition INT_MIN : Z := - 2147483648.
Definition INT_MAX : Z := 2147483647.

Definition in_int (z : Z) : bool := (INT_MIN <=? z) && (z <=? INT_MAX).

(** The exceptions the program can see: [std::stoi] throws the first
    two, the file wrappers throw [std::runtime_error]. *)
Inductive exn : Type :=
| invalid_argument
| out_of_range
| runtime_error (what : string).

(** Result of running a piece of code: a value, a thrown exception,
    undefined behaviour (signed overflow of a loop counter), or a loop
    model that was given too little fuel. *)
Inductive outcome (A : Type) : Type :=
| Ret (a : A)
| Throw (e : exn)
| Undefined
| OutOfFuel.

Arguments Ret {A} a.
Arguments Throw {A} e.
Arguments Undefined {A}.
Arguments OutOfFuel {A}.

Definition obind {A B} (m : outcome A) (k : A -> outcome B) : outcome B :=
  match m with
  | Ret a => k a
  | Throw e => Throw e
  | Undefined => Undefined
  | OutOfFuel => OutOfFuel
  end.

End Cpp.
Export Cpp.

Notation "x <-? m ; k" := (obind m (fun x => k))
  (at level 100, m at next level, right associativity, only parsing).

(** ** Strings: the pieces of <string> and <sstream> that parseSpec uses *)

Module Str.

Definition comma : ascii := ","%char.
Definition dash : ascii := "-"%char.
Definition plus : ascii := "+"%char.

(** [isspace] in the "C" locale. *)
Definition isspace (c : ascii) : bool :=
  let n := Z.of_nat (nat_of_ascii c) in
  (n =? 32) || ((9 <=? n) && (n <=? 13)).

Definition digit_of (c : ascii) : option Z :=
  let n := Z.of_nat (nat_of_ascii c) in
  if (48 <=? n) && (n <=? 57) then Some (n - 48) else None.

Definition digit_char (d : Z) : ascii := ascii_of_nat (Z.to_nat (48 + d)).

Fixpoint skip_space (s : string) : string :=
  match s with
  | String c s' => if isspace c then skip_space s' else s
  | EmptyString => s
  end.

(** Longest run of leading decimal digits, accumulated left to right;
    [None] when there is no digit at all. *)
Fixpoint read_digits (s : string) (acc : Z) (seen : bool) : option Z :=
  match s with
  | String c s' =>
      match digit_of c with
      | Some d => read_digits s' (10 * acc + d) true
      | None => if seen then Some acc else None
      end
  | EmptyString => if seen then Some acc else None
  end.

(** [std::stoi(s)]: [strtol] in base 10 (leading white space, optional
    sign, digits, trailing text ignored); no digit throws
    [invalid_argument], a value that does not fit [int] throws
    [out_of_range]. *)
Definition stoi (s : string) : outcome Z :=
  let s1 := skip_space s in
  let '(neg, s2) :=
    match s1 with
    | String c r =>
        if Ascii.eqb c dash then (true, r)
        else if Ascii.eqb c plus then (false, r)
        else (false, s1)
    | EmptyString => (false, s1)
    end in
  match read_digits s2 0 false with
  | None => Throw invalid_argument
  | Some v =>
      let v := if neg then - v else v in
      if in_int v then Ret v else Throw out_of_range
  end.

(** [s.find(c)]: index of the first occurrence, [None] for [npos]. *)
Fixpoint find (c : ascii) (s : string) : option nat :=
  match s with
  | EmptyString => None
  | String x s' => if Ascii.eqb x c then Some O else S <$> find c s'
  end.

(** [s.substr(pos)] and [s.substr(0, len)], for [pos], [len] within [s]. *)
Fixpoint substr_from (s : string) (pos : nat) {struct pos} : string :=
  match pos, s with
  | O, _ => s
  | S p, String _ s' => substr_from s' p
  | S _, EmptyString => EmptyString
  end.

Fixpoint substr_to (s : string) (len : nat) {struct len} : string :=
  match len, s with
  | O, _ => EmptyString
  | S n, String c s' => String c (substr_to s' n)
  | S _, EmptyString => EmptyString
  end.

(** [std::getline(ss, tok, delim)] on a stream whose unread part is
    [ss]: fails when nothing is left, otherwise extracts up to and
    including the first [delim] (or up to the end) and stores what came
    before the delimiter. *)
Fixpoint take_until (d : ascii) (s : string) : string * string :=
  match s with
  | EmptyString => (EmptyString, EmptyString)
  | String c s' =>
      if Ascii.eqb c d then (EmptyString, s')
      else let '(t, r) := take_until d s' in (String c t, r)
  end.

Definition getline (ss : string) (d : ascii) : option (string * string) :=
  match ss with
  | EmptyString => None
  | _ => Some (take_until d ss)
  end.

(** Decimal rendering of an integer, as one writes it in a spec. *)
Fixpoint show_digits (fuel : nat) (n : Z) (acc : string) : string :=
  match fuel with
  | O => acc
  | S f =>
      let acc' := String (digit_char (n mod 10)) acc in
      if n <? 10 then acc' else show_digits f (n / 10) acc'
  end.

Definition show_nat (n : Z) : string :=
  show_digits (S (Z.to_nat (Z.log2 n))) n EmptyString.

Definition show_Z (z : Z) : string :=
  if z <? 0 then String dash (show_nat (- z)) else show_nat z.

End Str.
Export Str.

(** ** pageSpec parser *)

(** [for (int p = a; p <= b; ++p) idx.insert(p);].  When the loop runs and
    [b] is [INT_MAX] the increment overflows. *)
Definition insert_range (a b : Z) (idx : gset Z) : outcome (gset Z) :=
  if (a <=? b) && (b =? INT_MAX) then Undefined
  else Ret (foldl (fun s p => {[ p ]} ∪ s) idx (seqZ a (b - a + 1))).

(** Body of the [while] loop of [parseSpec] for one token. *)
Definition parse_token (tok : string) (maxPage : Z) (idx : gset Z)
  : outcome (gset Z) :=
  match find dash tok with
  | None =>
      p <-? stoi tok;
      Ret (if (1 <=? p) && (p <=? maxPage) then {[ p ]} ∪ idx else idx)
  | Some d =>
      a <-? stoi (substr_to tok d);
      b <-? stoi (substr_from tok (S d));
      let '(a, b) := if b <? a then (b, a) else (a, b) in
      let a := Z.max a 1 in
      let b := Z.min b maxPage in
      insert_range a b idx
  end.

(** [while (std::getline(ss, tok, ',')) ...]: every round consumes at
    least one character of the stream. *)
Fixpoint parse_tokens (fuel : nat) (ss : string) (maxPage : Z) (idx : gset Z)
  : outcome (gset Z) :=
  match fuel with
  | O => OutOfFuel
  | S fuel' =>
      match getline ss comma with
      | None => Ret idx
      | Some (tok, ss') =>
          idx' <-? parse_token tok maxPage idx;
          parse_tokens fuel' ss' maxPage idx'
      end
  end.

Definition parseSpec (spec : string) (maxPage : Z) : outcome (gset Z) :=
  if String.eqb spec "all" then insert_range 1 maxPage ∅
  else parse_tokens (S (String.length spec)) spec maxPage ∅.

(** ** The world outside the program *)

(** Calls into PDFium, in program order.  Page handles are named by the
    0-based index they were loaded with; floating-point arguments are
    not recorded. *)
Inductive Event : Type :=
| FPDF_InitLibraryWithConfig
| FPDF_LoadCustomDocument (ok : bool)
| FPDF_GetLastError
| FPDF_GetPageCount
| FPDF_LoadPage (index : Z) (ok : bool)
| FPDFPageObj_NewTextObj
| FPDFPageObj_SetFillColor (r g b a : Z)
| FPDFText_SetText (text : list Z)
| FPDFPageObj_GetBounds
| FPDF_GetPageWidthF (index : Z)
| FPDFPageObj_Transform
| FPDFPage_InsertObject (index : Z)
| FPDFPage_GenerateContent (index : Z)
| FPDF_ClosePage (index : Z)
| FPDF_SaveWithVersion (flags version : Z) (ok : bool)
| FPDF_CloseDocument
| FPDF_DestroyLibrary.

#[export] Instance Event_eq_dec : EqDecision Event.
Proof. solve_decision. Defined.

Definition FPDF_INCREMENTAL : Z := 1.

(** What the collaborators answer.  [save_with_version k] is the [k]-th
    call of [FPDF_SaveWithVersion] (from 0): the blocks the library hands
    to [WriteBlock], in order, and its return value.  [fopen_wb_ok] tells
    whether [fopen(path, "wb+")] succeeds.  [fwrite] itself is taken to
    succeed. *)
Record Extern : Type := {
  load_custom_document : bool;
  get_last_error : Z;
  get_page_count : Z;
  load_page : Z -> bool;
  save_with_version : nat -> list (list byte) * bool;
  fopen_wb_ok : string -> bool;
}.

(** The observable state: file contents by path, the stream owned by the
    [FileWriter] (path and position indicator) while it is open, the
    library calls so far and the lines written to [std::cerr] and
    [std::cout]; [cerr] holds the diagnostics of the program, not the
    lines of the memory probe. *)
Record World : Type := {
  files : gmap string (list byte);
  stream : option (string * nat);
  calls : list Event;
  cerr : list string;
  cout : list string;
}.

Definition M (A : Type) : Type := World -> outcome A * World.

#[export] Instance M_ret : MRet M := fun A a w => (Ret a, w).

#[export] Instance M_bind : MBind M := fun A B k m w =>
  match m w with
  | (Ret a, w') => k a w'
  | (Throw e, w') => (Throw e, w')
  | (Undefined, w') => (Undefined, w')
  | (OutOfFuel, w') => (OutOfFuel, w')
  end.

Definition lift {A} (o : outcome A) : M A := fun w => (o, w).

Fixpoint for_each {A} (l : list A) (body : A -> M unit) : M unit :=
  match l with
  | [] => mret tt
  | a :: l' => body a;; for_each l' body
  end.

Definition add_calls (es : list Event) (w : World) : World :=
  {| files := files w; stream := stream w;
     calls := calls w ++ es; cerr := cerr w; cout := cout w |}.

Definition add_cerr (line : string) (w : World) : World :=
  {| files := files w; stream := stream w;
     calls := calls w; cerr := cerr w ++ [line]; cout := cout w |}.

Definition add_cout (line : string) (w : World) : World :=
  {| files := files w; stream := stream w;
     calls := calls w; cerr := cerr w; cout := cout w ++ [line] |}.

Definition set_files (f : gmap string (list byte)) (s : option (string * nat))
  (w : World) : World :=
  {| files := f; stream := s; calls := calls w; cerr := cerr w; cout := cout w |}.

Definition call (e : Event) : M unit := fun w => (Ret tt, add_calls [e] w).
Definition to_cerr (line : string) : M unit := fun w => (Ret tt, add_cerr line w).
Definition to_cout (line : string) : M unit := fun w => (Ret tt, add_cout line w).

(** ** Streaming output *)

(** A file opened with "wb+" is written at the position indicator: bytes
    there are replaced, bytes past the end extend the file. *)
Definition write_at (pos : nat) (data content : list byte) : list byte :=
  take pos content ++ replicate (pos - length content) x00 ++ data
    ++ drop (pos + length data) content.

(** [std::fwrite(buf, 1, sz, fw.fp)], also [FileWriter::W]. *)
Definition fwrite (data : list byte) : M unit :=
  fun w =>
    match stream w with
    | Some (path, pos) =>
        (Ret tt, set_files (alter (write_at pos data) path (files w))
                           (Some (path, (pos + length data)%nat)) w)
    | None => (Ret tt, w)
    end.

(** [std::rewind(fw.fp)]: the position indicator goes to the beginning of
    the file. *)
Definition rewind : M unit :=
  fun w =>
    match stream w with
    | Some (path, _) => (Ret tt, set_files (files w) (Some (path, O)) w)
    | None => (Ret tt, w)
    end.

Definition fclose : M unit :=
  fun w => (Ret tt, set_files (files w) None w).

(** [FileWriter fw(path, "wb+")] with the rest of its scope: the file is
    created or truncated; the destructor closes it however the scope is
    left. *)
Definition FileWriter_scope {A} (x : Extern) (path : string) (body : M A) : M A :=
  fun w =>
    if fopen_wb_ok x path then
      let '(r, w') := body (set_files (<[path := []]> (files w)) (Some (path, O)) w) in
      (r, snd (fclose w'))
    else (Throw (runtime_error "open out"), w).

(** Size of the copy buffer, [1<<20]. *)
Definition BUF : N := 1048576.

(** [src.read(buf, n)]: the bytes extracted and the unread rest. *)
Fixpoint read_chunk (n : N) (src : list byte) : list byte * list byte :=
  match src with
  | [] => ([], [])
  | b :: src' =>
      if (n =? 0)%N then ([], src)
      else let '(c, r) := read_chunk (N.pred n) src' in (b :: c, r)
  end.

(** [while (src) { src.read(...); fwrite(..., src.gcount(), fw.fp); }]:
    the stream stays good exactly when the read filled the buffer. *)
Fixpoint copy_loop (fuel : nat) (src : list byte) : M unit :=
  match fuel with
  | O => lift OutOfFuel
  | S fuel' =>
      let '(chunk, rest) := read_chunk BUF src in
      fwrite chunk;;
      if (N.of_nat (length chunk) =? BUF)%N then copy_loop fuel' rest
      else mret tt
  end.

(** Step 3 of the routine, after the [FileWriter] exists: copy the
    original bytes, flush, rewind. *)
Definition prepare_output (inPath : string) : M unit :=
  fun w =>
    match files w !! inPath with
    | None => (Throw (runtime_error "open input for copy"), w)
    | Some src =>
        (copy_loop (S (length src)) src;; rewind) w
    end.

(** ** Core stamping routine *)

(** [u16]: every byte of the text becomes one UTF-16 code unit. *)
Definition u16 (s : string) : list Z :=
  (fun c => Z.of_nat (nat_of_ascii c)) <$> list_ascii_of_string s.

Definition STEP : Z := 40.

Definition is_save (e : Event) : bool :=
  match e with FPDF_SaveWithVersion _ _ _ => true | _ => false end.

(** How many times [FPDF_SaveWithVersion] has been called so far. *)
Definition save_calls (w : World) : nat :=
  length (List.filter is_save (calls w)).

(** The stamp put on one loaded page ([p] is 1-based). *)
Definition stamp_page (wtxt : list Z) (p : Z) : M unit :=
  call FPDFPageObj_NewTextObj;;
  call (FPDFPageObj_SetFillColor 0 0 255 255);;
  call (FPDFText_SetText wtxt);;
  call FPDFPageObj_GetBounds;;
  call (FPDF_GetPageWidthF (p - 1));;
  call FPDFPageObj_Transform;;
  call (FPDFPage_InsertObject (p - 1));;
  call (FPDFPage_GenerateContent (p - 1));;
  call (FPDF_ClosePage (p - 1)).

(** Body of the inner loop. *)
Definition page_step (x : Extern) (wanted : gset Z) (wtxt : list Z) (p : Z)
  : M unit :=
  if decide (p ∈ wanted) then
    let page := load_page x (p - 1) in
    call (FPDF_LoadPage (p - 1) page);;
    if page then stamp_page wtxt p else mret tt
  else mret tt.

(** [for (int p = start; p <= end; ++p) ...]; the last increment
    overflows when [end] is [INT_MAX]. *)
Definition page_loop (x : Extern) (wanted : gset Z) (wtxt : list Z)
  (start end_ : Z) : M unit :=
  if (start <=? end_) && (end_ =? INT_MAX) then lift Undefined
  else for_each (seqZ start (end_ - start + 1)) (page_step x wanted wtxt).

(** [FPDF_SaveWithVersion(doc, &fw, FPDF_INCREMENTAL, 17)]: the library
    writes its blocks through [FileWriter::W] and reports a status. *)
Definition save_incremental (x : Extern) : M bool :=
  fun w =>
    let '(blocks, ok) := save_with_version x (save_calls w) in
    (for_each blocks fwrite;;
     call (FPDF_SaveWithVersion FPDF_INCREMENTAL 17 ok);;
     mret ok) w.

(** Step 4: [for (int start = 1; start <= pageCount; start += STEP)].
    The result is [true] when the loop ran to its end and [false] when
    the routine returned from inside it.  [start + STEP - 1] is
    [(start + STEP) - 1]: the sum [start + STEP] must fit [int], and it is
    the same sum that [start += STEP] computes at the end of the round. *)
Fixpoint batch_loop (fuel : nat) (x : Extern) (wanted : gset Z)
  (wtxt : list Z) (pageCount start : Z) : M bool :=
  match fuel with
  | O => lift OutOfFuel
  | S fuel' =>
      if start <=? pageCount then
        if INT_MAX <? start + STEP then lift Undefined
        else
          let end_ := Z.min (start + STEP - 1) pageCount in
          page_loop x wanted wtxt start end_;;
          ok ← save_incremental x;
          if negb ok then to_cerr "save err";; mret false
          else batch_loop fuel' x wanted wtxt pageCount (start + STEP)
      else mret true
  end.

Definition InplaceIncrementalStamp (x : Extern)
  (spec text inPath outPath : string) : M bool :=
  call FPDF_InitLibraryWithConfig;;
  call (FPDF_LoadCustomDocument (load_custom_document x));;
  if negb (load_custom_document x) then
    call FPDF_GetLastError;;
    to_cerr ("Load err " +:+ show_Z (get_last_error x));;
    mret false
  else
    call FPDF_GetPageCount;;
    let pageCount := get_page_count x in
    wanted ← lift (parseSpec spec pageCount);
    if decide (wanted = ∅) then
      to_cerr "no pages matched";;
      mret false
    else
      let wtxt := u16 text in
      FileWriter_scope x outPath
        (prepare_output inPath;;
         done ← batch_loop (S (Z.to_nat pageCount)) x wanted wtxt pageCount 1;
         if negb done then mret false
         else
           call FPDF_CloseDocument;;
           call FPDF_DestroyLibrary;;
           mret true).

(** ** CLI *)

(** [e.what()]; for the [std::stoi] exceptions this is the text libstdc++
    gives. *)
Definition what (e : exn) : string :=
  match e with
  | invalid_argument => "stoi"
  | out_of_range => "stoi"
  | runtime_error m => m
  end.

Definition wrote : string :=
  String (ascii_of_nat 226) (String (ascii_of_nat 156)
    (String (ascii_of_nat 148) " wrote ")).

(** [main]: [av] is the whole argument vector, program name first.  The
    result is the exit status. *)
Definition main (x : Extern) (av : list string) : M Z :=
  match av with
  | [] | [_] =>
      to_cerr "usage: inplace_incremental_stamp <pdf> [pageSpec] [out.pdf] [text]";;
      mret 1
  | _ :: in_ :: rest =>
      let spec := default "all"%string (rest !! 0%nat) in
      let out := default "stamped.pdf"%string (rest !! 1%nat) in
      let txt := default "Stamped by Asem"%string (rest !! 2%nat) in
      fun w =>
        let body : M bool :=
          match files w !! in_ with
          | None => lift (Throw (runtime_error ("open " +:+ in_)))
          | Some _ => InplaceIncrementalStamp x spec txt in_ out
          end in
        match body w with
        | (Ret true, w') => (to_cout (wrote +:+ out);; mret 0) w'
        | (Ret false, w') => (Ret 1, w')
        | (Throw e, w') => (to_cerr (what e);; mret 1) w'
        | (Undefined, w') => (Undefined, w')
        | (OutOfFuel, w') => (OutOfFuel, w')
        end
  end.

(** ** The loops read as lists *)

(** The tokens [std::getline] hands out, one after the other. *)
Fixpoint tokens_of (s : string) : list string :=
  match s with
  | EmptyString => []
  | String c s' =>
      if Ascii.eqb c comma then EmptyString :: tokens_of s'
      else match tokens_of s' with
           | [] => [String c EmptyString]
           | t :: ts => String c t :: ts
           end
  end.

Fixpoint parse_list (toks : list string) (maxPage : Z) (idx : gset Z)
  : outcome (gset Z) :=
  match toks with
  | [] => Ret idx
  | tok :: toks' =>
      idx' <-? parse_token tok maxPage idx;
      parse_list toks' maxPage idx'
  end.

Fixpoint digits_only (s : string) : bool :=
  match s with
  | EmptyString => true
  | String c s' => bool_decide (is_Some (digit_of c)) && digits_only s'
  end.

(** Calls made for one page of the inner loop. *)
Definition stamp_events (wtxt : list Z) (p : Z) : list Event :=
  [ FPDFPageObj_NewTextObj; FPDFPageObj_SetFillColor 0 0 255 255;
    FPDFText_SetText wtxt; FPDFPageObj_GetBounds; FPDF_GetPageWidthF (p - 1);
    FPDFPageObj_Transform; FPDFPage_InsertObject (p - 1);
    FPDFPage_GenerateContent (p - 1); FPDF_ClosePage (p - 1) ].

Definition page_events (x : Extern) (wanted : gset Z) (wtxt : list Z) (p : Z)
  : list Event :=
  if decide (p ∈ wanted) then
    FPDF_LoadPage (p - 1) (load_page x (p - 1))
      :: (if load_page x (p - 1) then stamp_events wtxt p else [])
  else [].

(** The [i]-th batch (from 0) of a document of [pageCount] pages, as the
    pair of its first and last page. *)
Definition batch (pageCount : Z) (i : nat) : Z * Z :=
  (1 + STEP * Z.of_nat i, Z.min (STEP * Z.of_nat i + STEP) pageCount).

Definition num_batches (pageCount : Z) : nat :=
  Z.to_nat ((pageCount + STEP - 1) / STEP).

Definition batches_from (pageCount : Z) (i : nat) : list (Z * Z) :=
  batch pageCount <$> seq i (num_batches pageCount - i).

Definition batches (pageCount : Z) : list (Z * Z) := batches_from pageCount 0.

Definition pages_of (b : Z * Z) : list Z := seqZ b.1 (b.2 - b.1 + 1).

Definition batch_page_events (x : Extern) (wanted : gset Z) (wtxt : list Z)
  (b : Z * Z) : list Event :=
  pages_of b ≫= page_events x wanted wtxt.

Definition write_blocks (blocks : list (list byte)) (w : World) : World :=
  (for_each blocks fwrite w).2.

(** The batch loop as a walk over a list of batches. *)
Fixpoint run_batches (x : Extern) (wanted : gset Z) (wtxt : list Z)
  (bs : list (Z * Z)) (w : World) : outcome bool * World :=
  match bs with
  | [] => (Ret true, w)
  | b :: bs' =>
      let w1 := add_calls (batch_page_events x wanted wtxt b) w in
      let r := save_with_version x (save_calls w1) in
      let w2 := add_calls [FPDF_SaveWithVersion FPDF_INCREMENTAL 17 r.2]
                          (write_blocks r.1 w1) in
      if r.2 then run_batches x wanted wtxt bs' w2
      else (Ret false, add_cerr "save err" w2)
  end.

(** What a run did to the document, reduced to the two things the batch
    protocol is about: a page got its stamp, a save was issued. *)
Inductive Step : Type :=
| Stamped (p : Z)
| Saved (ok : bool).

Definition step_of (e : Event) : option Step :=
  match e with
  | FPDFPage_GenerateContent index => Some (Stamped (index + 1))
  | FPDF_SaveWithVersion _ _ ok => Some (Saved ok)
  | _ => None
  end.

Definition steps (es : list Event) : list Step := omap step_of es.

(** Pages of a batch that are selected and load. *)
Definition stampable (x : Extern) (wanted : gset Z) (b : Z * Z) : list Z :=
  List.filter (fun p => bool_decide (p ∈ wanted) && load_page x (p - 1)) (pages_of b).

Definition batch_events (x : Extern) (wanted : gset Z) (wtxt : list Z)
  (ok : bool) (b : Z * Z) : list Event :=
  batch_page_events x wanted wtxt b ++ [FPDF_SaveWithVersion FPDF_INCREMENTAL 17 ok].

(** ** Properties under study *)

(** The property of a range token: the set selected by "a-b" is the
    interval between the two bounds, in either order, cut to the pages
    that exist. *)
Definition selects_clamped_range (a b N : Z) : Prop :=
  exists s, parseSpec (show_Z a +:+ "-" +:+ show_Z b) N = Ret s
    /\ forall p, p ∈ s <-> Z.max 1 (Z.min a b) <= p <= Z.min N (Z.max a b).

(** The property of a single-integer token with value [v]: the token
    leaves the set as it is and the parse goes on, wherever the token
    stands. *)
Definition single_is_dropped (v N : Z) : Prop :=
  (forall idx, parse_token (show_Z v) N idx = Ret idx)
  /\ parseSpec (show_Z v) N = Ret ∅
  /\ (forall s1 s2,
        parseSpec (s1 +:+ "," +:+ show_Z v +:+ "," +:+ s2) N
        = parseSpec (s1 +:+ "," +:+ s2) N).

(** The conditions under which the routine gets to its batch loop: the
    document loads, the selection is not empty, the output opens, the
    input can be read for the copy, and the loop counters stay within
    [int].  [src] is what the copy reads. *)
Definition reaches_loop (x : Extern) (spec inPath outPath : string)
  (wanted : gset Z) (src : list byte) (w : World) : Prop :=
  load_custom_document x = true
  /\ parseSpec spec (get_page_count x) = Ret wanted
  /\ wanted <> ∅
  /\ fopen_wb_ok x outPath = true
  /\ <[outPath := []]> (files w) !! inPath = Some src
  /\ get_page_count x <= INT_MAX - STEP.

Definition at_loop (outPath : string) (src : list byte) (w : World) : World :=
  set_files (<[outPath := src]> (files w)) (Some (outPath, O))
    (add_calls [FPDF_InitLibraryWithConfig; FPDF_LoadCustomDocument true;
                FPDF_GetPageCount] w).

(** A full command line. *)
Definition argv (inPath spec outPath text : string) : list string :=
  ["inplace_incremental_stamp"; inPath; spec; outPath; text].

(** Empty spec, as the design document has it: the run fails with "no
    pages matched", exit status 1, and the output file holds the copy of
    the input. *)
Definition empty_spec_leaves_copy (x : Extern) (inPath outPath text : string)
  (w : World) : Prop :=
  let r := main x (argv inPath "" outPath text) w in
  r.1 = Ret 1 /\ cerr r.2 = cerr w ++ ["no pages matched"]
  /\ files r.2 !! outPath = files w !! inPath.

(** Empty spec, as the code has it: same failure, and no file is touched. *)
Definition empty_spec_leaves_files (x : Extern) (inPath outPath text : string)
  (w : World) : Prop :=
  let r := main x (argv inPath "" outPath text) w in
  r.1 = Ret 1 /\ cerr r.2 = cerr w ++ ["no pages matched"]
  /\ files r.2 = files w /\ stream r.2 = stream w.

(** ** Sample inputs *)

(** A document of [pages] pages that loads; [bad_page] tells which page
    indices fail to load and [bad_save] which save calls fail.  Every save
    hands the two bytes "xy" to the writer. *)
Definition sample_doc (pages : Z) (bad_page : Z -> bool) (bad_save : nat -> bool)
  : Extern :=
  {| load_custom_document := true;
     get_last_error := 0;
     get_page_count := pages;
     load_page := fun i => negb (bad_page i);
     save_with_version := fun k => ([[x78; x79]], negb (bad_save k));
     fopen_wb_ok := fun _ => true |}.

(** A library that cannot load the document (error code 3). *)
Definition unloadable_doc : Extern :=
  {| load_custom_document := false;
     get_last_error := 3;
     get_page_count := 0;
     load_page := fun _ => false;
     save_with_version := fun _ => ([], false);
     fopen_wb_ok := fun _ => true |}.

(** A file system with the input "ABCD" and nothing else. *)
Definition disk : World :=
  {| files := {[ "in.pdf" := [x41; x42; x43; x44] ]};
     stream := None; calls := []; cerr := []; cout := [] |}.

Definition count_call (e : Event) (es : list Event) : nat :=
  length (List.filter (fun e' => bool_decide (e' = e)) es).

(** Calls before and after the batch loop of a complete run. *)
Definition prologue : list Event :=
  [FPDF_InitLibraryWithConfig; FPDF_LoadCustomDocument true; FPDF_GetPageCount].

Definition epilogue : list Event := [FPDF_CloseDocument; FPDF_DestroyLibrary].

(** The set the spec "all" selects on [n] pages. *)
Definition all_pages (n : Z) : gset Z :=
  foldl (fun s p => {[ p ]} ∪ s) ∅ (seqZ 1 (n - 1 + 1)).

(** ** Further readings of the parser *)

(** Whether the last character of a spec is a comma. *)
Fixpoint ends_with_comma (s : string) : bool :=
  match s with
  | EmptyString => false
  | String c EmptyString => Ascii.eqb c comma
  | String _ s' => ends_with_comma s'
  end.

Definition outcome_map {A B} (f : A -> B) (o : outcome A) : outcome B :=
  obind o (fun a => Ret (f a)).

(** ** Streaming input *)

(** [long] and [std::streamoff] are 64-bit signed: an [unsigned long]
    above [LONG_MAX] turns negative when it is used as a stream offset or
    a byte count. *)
Definition LONG_MAX : Z := 9223372036854775807.

(** The reader interface the library pulls blocks through. *)
Class IReader (R : Type) : Type := {
  Read : R -> Z -> Z -> bool * list byte * R;
  Len : R -> Z;
}.

(** [FileReader]: the bytes of the file it was opened on, the length [n]
    taken at construction and the fail bit of its [std::ifstream].  The
    file is taken not to change while the reader lives. *)
Record FileReader : Type := {
  f_bytes : list byte;
  f_fail : bool;
  n : Z;
}.

Definition set_fail (r : FileReader) : FileReader :=
  {| f_bytes := f_bytes r; f_fail := true; n := n r |}.

(** [FileReader::Read(off, buf, sz)]: result, the bytes stored in [buf],
    and the reader afterwards.  [seekg] clears the eof bit but does
    nothing on a stream whose fail bit is set, and nothing clears the
    fail bit: once it is set every read extracts nothing and returns
    [0 == sz].  On a good stream a seek to a negative offset fails, a
    negative count extracts nothing, and otherwise the read extracts the
    bytes that exist and sets the fail bit when they are fewer than
    [sz]. *)
Definition FileReader_Read (r : FileReader) (off sz : Z)
  : bool * list byte * FileReader :=
  if f_fail r then (sz =? 0, [], r)
  else if LONG_MAX <? off then (sz =? 0, [], set_fail r)
  else if LONG_MAX <? sz then (false, [], set_fail r)
  else
    let data := take (Z.to_nat sz) (drop (Z.to_nat off) (f_bytes r)) in
    let ok := Z.of_nat (length data) =? sz in
    (ok, data, if ok then r else set_fail r).

#[export] Instance FileReader_IReader : IReader FileReader := {
  Read := FileReader_Read;
  Len := n;
}.

(** [FileReader rdr(p)]: throws when the file cannot be opened, otherwise
    seeks to the end to take the length. *)
Definition FileReader_open (fs : gmap string (list byte)) (p : string)
  : outcome FileReader :=
  match fs !! p with
  | None => Throw (runtime_error ("open " +:+ p))
  | Some bytes =>
      Ret {| f_bytes := bytes; f_fail := false; n := Z.of_nat (length bytes) |}
  end.

(** [GetBlock]: the callback handed to the library; [FPDF_BOOL] is [int]. *)
Definition GetBlock {R} `{IReader R} (p : R) (pos sz : Z) : Z * list byte * R :=
  let '(ok, data, p') := Read p pos sz in
  ((if ok then 1 else 0), data, p').

(** A series of block requests, as the library issues them. *)
Fixpoint read_all {R} `{IReader R} (p : R) (reqs : list (Z * Z))
  : list (Z * list byte) * R :=
  match reqs with
  | [] => ([], p)
  | (pos, sz) :: reqs' =>
      let '(ok, data, p') := GetBlock p pos sz in
      let '(rest, p'') := read_all p' reqs' in
      ((ok, data) :: rest, p'')
  end.

(** The bytes of [bytes] from offset [off], [sz] of them. *)
Definition slice (bytes : list byte) (off sz : Z) : list byte :=
  take (Z.to_nat sz) (drop (Z.to_nat off) bytes).

(** A request that lies within a file of these bytes. *)
Definition in_range (bytes : list byte) (req : Z * Z) : Prop :=
  0 <= req.1 /\ 0 <= req.2 /\ req.1 + req.2 <= Z.of_nat (length bytes).

(** ** Further readings of the output *)

(** The bytes that the save calls number [from], ..., [from + k - 1] hand
    to the writer, in order. *)
Definition saved_bytes (x : Extern) (from k : nat) : list byte :=
  concat (concat ((fun j => (save_with_version x j).1) <$> seq from k)).

(** The open stream, if any, is on [out]. *)
Definition stream_on (out : string) (w : World) : Prop :=
  forall p pos, stream w = Some (p, pos) -> p = out.

(** A computation that writes to no file but [out]. *)
Definition keeps_to (out : string) {A} (m : M A) : Prop :=
  forall w, stream_on out w ->
    stream_on out (m w).2
    /\ forall p, p <> out -> files (m w).2 !! p = files w !! p.

(** ** Further readings of the calls *)

(** The page discipline of a series of calls, as a state: [Some None]
    when no page is open, [Some (Some i)] when the page of index [i] is,
    and [None] once the discipline is broken: a page is loaded while
    another is open, a page is used or closed that is not the open one, or
    the document is saved or closed while a page is open. *)
Definition page_step_state (st : option (option Z)) (e : Event)
  : option (option Z) :=
  match st with
  | None => None
  | Some cur =>
      match e with
      | FPDF_LoadPage i ok =>
          match cur with
          | None => Some (if ok then Some i else None)
          | Some _ => None
          end
      | FPDF_GetPageWidthF i | FPDFPage_InsertObject i
      | FPDFPage_GenerateContent i =>
          if decide (cur = Some i) then st else None
      | FPDF_ClosePage i => if decide (cur = Some i) then Some None else None
      | FPDF_SaveWithVersion _ _ _ | FPDF_CloseDocument | FPDF_DestroyLibrary =>
          match cur with None => st | Some _ => None end
      | _ => st
      end
  end.

Definition page_state (es : list Event) : option (option Z) :=
  foldl page_step_state (Some None) es.

(** A computation that keeps a property of the world. *)
Definition preserves (P : World -> Prop) {A} (m : M A) : Prop :=
  forall w, P w -> P (m w).2.

Definition pages_closed (w : World) : Prop := page_state (calls w) = Some None.

(** The pages a run asked the library for, and the pages it stamped, as
    1-based page numbers in the order of the calls. *)
Definition asked_pages (es : list Event) : list Z :=
  omap (fun e => match e with
                 | FPDF_LoadPage i _ => Some (i + 1)
                 | _ => None
                 end) es.

Definition stamped_pages (es : list Event) : list Z :=
  omap (fun e => match e with
                 | FPDFPage_GenerateContent i => Some (i + 1)
                 | _ => None
                 end) es.

(** ** Facts about the string functions *)

Lemma digit_of_digit_char d : 0 <= d <= 9 -> digit_of (digit_char d) = Some d.
Proof.
  intros Hd.
  assert (d = 0 \/ d = 1 \/ d = 2 \/ d = 3 \/ d = 4 \/ d = 5 \/ d = 6
          \/ d = 7 \/ d = 8 \/ d = 9) as Hc by lia.
  repeat (destruct Hc as [-> | Hc]; [reflexivity |]). subst. reflexivity.
Qed.

Lemma read_digits_show_digits f n acc seen :
  0 <= n < 2 ^ Z.of_nat (S f) ->
  read_digits (show_digits (S f) n acc) 0 seen = read_digits acc n true.
Proof.
  revert n acc seen. induction f as [| f IH]; intros n acc seen Hn.
  - cbn [show_digits]. replace (n <? 10) with true by (symmetry; apply Z.ltb_lt; cbn in Hn; lia).
    cbn [read_digits]. rewrite digit_of_digit_char by (pose proof (Z.mod_pos_bound n 10); lia).
    f_equal. rewrite Z.mod_small; cbn in Hn; lia.
  - change (show_digits (S (S f)) n acc)
      with (if n <? 10 then String (digit_char (n mod 10)) acc
            else show_digits (S f) (n / 10) (String (digit_char (n mod 10)) acc)).
    destruct (Z.ltb_spec n 10) as [Hlt | Hge].
    + cbn [read_digits]. rewrite digit_of_digit_char by (pose proof (Z.mod_pos_bound n 10); lia).
      f_equal. rewrite Z.mod_small; lia.
    + rewrite IH.
      * cbn [read_digits]. rewrite digit_of_digit_char by (pose proof (Z.mod_pos_bound n 10); lia).
        f_equal. pose proof (Z.div_mod n 10). lia.
      * split; [apply Z.div_pos; lia |].
        apply Z.div_lt_upper_bound; [lia |].
        replace (Z.of_nat (S (S f))) with (Z.succ (Z.of_nat (S f))) in Hn by lia.
        rewrite Z.pow_succ_r in Hn by lia. lia.
Qed.

Lemma sapp_cons c (s1 s2 : string) : String c s1 +:+ s2 = String c (s1 +:+ s2).
Proof. reflexivity. Qed.

Lemma sapp_nil_l (s : string) : "" +:+ s = s.
Proof. reflexivity. Qed.

Ltac sapp := rewrite ?sapp_cons, ?sapp_nil_l.

Lemma sapp_assoc (s1 s2 s3 : string) : (s1 +:+ s2) +:+ s3 = s1 +:+ (s2 +:+ s3).
Proof. induction s1 as [| c s1 IH]; sapp; [reflexivity | by rewrite IH]. Qed.

Lemma sapp_nil_r (s : string) : s +:+ "" = s.
Proof. induction s as [| c s IH]; sapp; [reflexivity | by rewrite IH]. Qed.

Lemma digits_only_app s1 s2 :
  digits_only (s1 +:+ s2) = digits_only s1 && digits_only s2.
Proof.
  induction s1 as [| c s1 IH]; sapp; cbn; [reflexivity |].
  by rewrite IH, andb_assoc.
Qed.

Lemma show_digits_shape f n acc :
  exists ds, show_digits f n acc = ds +:+ acc /\ digits_only ds = true
             /\ (f <> O -> ds <> EmptyString).
Proof.
  revert n acc. induction f as [| f IH]; intros n acc.
  - exists EmptyString. by cbn.
  - cbn [show_digits].
    assert (digits_only (String (digit_char (n mod 10)) "") = true) as Hd.
    { cbn. rewrite digit_of_digit_char by (pose proof (Z.mod_pos_bound n 10); lia).
      reflexivity. }
    destruct (n <? 10).
    + exists (String (digit_char (n mod 10)) ""). by sapp.
    + destruct (IH (n / 10) (String (digit_char (n mod 10)) acc))
        as (ds & -> & Hds & _).
      exists (ds +:+ String (digit_char (n mod 10)) "").
      rewrite sapp_assoc. split; [reflexivity |]. split.
      * by rewrite digits_only_app, Hds, Hd.
      * intros _. by destruct ds.
Qed.

Lemma show_nat_digits n :
  digits_only (show_nat n) = true /\ show_nat n <> EmptyString.
Proof.
  unfold show_nat.
  destruct (show_digits_shape (S (Z.to_nat (Z.log2 n))) n "") as (ds & -> & Hd & Hne).
  rewrite sapp_nil_r. split; [done | by apply Hne].
Qed.

Lemma read_digits_show_nat n :
  0 <= n -> read_digits (show_nat n) 0 false = Some n.
Proof.
  intros Hn. unfold show_nat. rewrite read_digits_show_digits; [reflexivity |].
  split; [done |].
  destruct (Z.eq_dec n 0) as [-> | Hnz]; [cbn; lia |].
  rewrite Nat2Z.inj_succ, Z2Nat.id by apply Z.log2_nonneg.
  apply Z.log2_spec. lia.
Qed.

(** A digit is neither white space nor a sign nor a separator. *)
Lemma digit_not_special c :
  is_Some (digit_of c) ->
  isspace c = false /\ Ascii.eqb c dash = false /\ Ascii.eqb c plus = false
  /\ Ascii.eqb c comma = false.
Proof.
  unfold digit_of, isspace. intros [d Hd].
  destruct (_ && _) eqn:Hr in Hd; [| discriminate].
  apply andb_prop in Hr as [H1 H2]. apply Z.leb_le in H1, H2.
  assert (forall k : nat, (k < 48)%nat -> Ascii.eqb c (ascii_of_nat k) = false) as Hk.
  { intros k Hlt. apply Ascii.eqb_neq. intros ->.
    rewrite nat_ascii_embedding in H1 by lia. lia. }
  split; [| split; [| split]].
  - apply orb_false_intro; [apply Z.eqb_neq; lia |].
    apply andb_false_intro2. apply Z.leb_gt. lia.
  - apply (Hk 45%nat). lia.
  - apply (Hk 43%nat). lia.
  - apply (Hk 44%nat). lia.
Qed.

Lemma find_digits_only c ds :
  digits_only ds = true -> digit_of c = None -> find c ds = None.
Proof.
  intros Hds Hc. induction ds as [| a ds IH]; cbn; [reflexivity |].
  cbn in Hds. apply andb_prop in Hds as [Ha Hds].
  apply bool_decide_eq_true in Ha.
  destruct (Ascii.eqb_spec a c) as [-> | _].
  - rewrite Hc in Ha. by destruct Ha.
  - by rewrite IH.
Qed.

Lemma find_app c s1 s2 :
  find c s1 = None ->
  find c (s1 +:+ s2) = (fun i => (String.length s1 + i)%nat) <$> find c s2.
Proof.
  intros H. induction s1 as [| a s1 IH]; sapp; cbn.
  - by destruct (find c s2).
  - cbn in H. destruct (Ascii.eqb a c); [discriminate |].
    destruct (find c s1); [discriminate |].
    rewrite IH by reflexivity. by destruct (find c s2).
Qed.

Lemma substr_to_app s1 s2 : substr_to (s1 +:+ s2) (String.length s1) = s1.
Proof. induction s1 as [| a s1 IH]; sapp; cbn; [reflexivity | by rewrite IH]. Qed.

Lemma substr_from_app s1 c s2 :
  substr_from (s1 +:+ String c s2) (S (String.length s1)) = s2.
Proof. induction s1 as [| a s1 IH]; sapp; cbn; [reflexivity | apply IH]. Qed.

Lemma stoi_show_nat n : 0 <= n <= INT_MAX -> stoi (show_nat n) = Ret n.
Proof.
  intros Hn. destruct (show_nat_digits n) as [Hd Hne]. unfold stoi.
  pose proof (read_digits_show_nat n (proj1 Hn)) as Hr.
  destruct (show_nat n) as [| c s]; [done |].
  cbn in Hd. apply andb_prop in Hd as [Hc _]. apply bool_decide_eq_true in Hc.
  destruct (digit_not_special c Hc) as (Hsp & Hda & Hpl & _).
  cbn [skip_space]. rewrite Hsp, Hda, Hpl, Hr.
  unfold in_int. replace (INT_MIN <=? n) with true
    by (symmetry; apply Z.leb_le; unfold INT_MIN; lia).
  by replace (n <=? INT_MAX) with true by (symmetry; apply Z.leb_le; lia).
Qed.

Lemma stoi_show_Z z : INT_MIN <= z <= INT_MAX -> stoi (show_Z z) = Ret z.
Proof.
  intros Hz. unfold show_Z. destruct (Z.ltb_spec z 0) as [Hneg | Hpos].
  - unfold stoi. cbn [skip_space].
    replace (isspace dash) with false by reflexivity.
    replace (Ascii.eqb dash dash) with true by reflexivity.
    rewrite read_digits_show_nat by lia.
    unfold in_int. rewrite Z.opp_involutive.
    replace (INT_MIN <=? z) with true by (symmetry; apply Z.leb_le; lia).
    by replace (z <=? INT_MAX) with true by (symmetry; apply Z.leb_le; lia).
  - apply stoi_show_nat. lia.
Qed.

Lemma find_show_Z c z : digit_of c = None -> c <> dash -> find c (show_Z z) = None.
Proof.
  intros Hc Hd. unfold show_Z. destruct (z <? 0).
  - cbn [find]. destruct (Ascii.eqb_spec dash c) as [<- | _]; [done |].
    rewrite find_digits_only; [reflexivity | apply show_nat_digits | done].
  - apply find_digits_only; [apply show_nat_digits | done].
Qed.

(** ** Facts about the parser *)

Lemma elem_of_foldl_insert (l : list Z) (idx : gset Z) (p : Z) :
  p ∈ foldl (fun s q => {[ q ]} ∪ s) idx l <-> p ∈ idx \/ p ∈ l.
Proof.
  revert idx. induction l as [| q l IH]; intros idx; cbn [foldl].
  - rewrite elem_of_nil. tauto.
  - rewrite IH, elem_of_union, elem_of_singleton, elem_of_cons. tauto.
Qed.

Lemma insert_range_spec a b idx :
  b < INT_MAX ->
  exists s, insert_range a b idx = Ret s
            /\ forall p, p ∈ s <-> p ∈ idx \/ a <= p <= b.
Proof.
  intros Hb. unfold insert_range.
  replace (b =? INT_MAX) with false by (symmetry; apply Z.eqb_neq; lia).
  rewrite andb_false_r. eexists. split; [reflexivity |].
  intros p. rewrite elem_of_foldl_insert, elem_of_seqZ.
  split; (intros [? | ?]; [by left | right; lia]).
Qed.

Lemma take_until_tokens c s :
  tokens_of (String c s) = (take_until comma (String c s)).1
                             :: tokens_of (take_until comma (String c s)).2
  /\ (String.length (take_until comma (String c s)).2 <= String.length s)%nat.
Proof.
  revert c. induction s as [| c' s IH]; intros c.
  - cbn. destruct (Ascii.eqb c comma); cbn; auto.
  - destruct (IH c') as [IHt IHl].
    cbn [tokens_of take_until] in *.
    destruct (Ascii.eqb c comma); [cbn; split; [reflexivity | lia] |].
    destruct (Ascii.eqb c' comma).
    + cbn in *. split; [reflexivity | lia].
    + destruct (take_until comma s) as [t r]. cbn [fst snd] in *.
      rewrite IHt. cbn. split; [reflexivity | lia].
Qed.

Lemma parse_tokens_list fuel ss N idx :
  (String.length ss < fuel)%nat ->
  parse_tokens fuel ss N idx = parse_list (tokens_of ss) N idx.
Proof.
  revert ss idx. induction fuel as [| fuel IH]; intros ss idx Hf; [lia |].
  destruct ss as [| c s]; [reflexivity |].
  destruct (take_until_tokens c s) as [Ht Hl].
  cbn [parse_tokens getline]. rewrite Ht.
  destruct (take_until comma (String c s)) as [tok rest]. cbn [fst snd parse_list] in *.
  destruct (parse_token tok N idx) as [idx' | | |]; cbn [obind]; try reflexivity.
  apply IH. cbn in Hf. lia.
Qed.

Lemma parse_list_app l1 l2 N idx :
  parse_list (l1 ++ l2) N idx = obind (parse_list l1 N idx) (parse_list l2 N).
Proof.
  revert idx. induction l1 as [| t l1 IH]; intros idx; [reflexivity |].
  cbn [app parse_list]. destruct (parse_token t N idx); cbn [obind]; auto.
Qed.

Lemma tokens_of_nonempty c s : tokens_of (String c s) <> [].
Proof. cbn. destruct (Ascii.eqb c comma); [done |]. by destruct (tokens_of s). Qed.

Lemma tokens_of_sep s1 r :
  tokens_of (s1 +:+ String comma r)
  = tokens_of (s1 +:+ String comma "") ++ tokens_of r.
Proof.
  induction s1 as [| c s1 IH]; [reflexivity |].
  rewrite !sapp_cons. cbn [tokens_of]. destruct (Ascii.eqb c comma).
  - by rewrite IH.
  - rewrite IH.
    destruct (tokens_of (s1 +:+ String comma "")) as [| t ts] eqn:Ht; [| reflexivity].
    destruct s1; [discriminate | by apply tokens_of_nonempty in Ht].
Qed.

Lemma tokens_of_single t :
  find comma t = None -> t <> EmptyString -> tokens_of t = [t].
Proof.
  induction t as [| c t IH]; [done |]. intros Hf _.
  cbn [find tokens_of] in *. destruct (Ascii.eqb c comma); [discriminate |].
  destruct (find comma t) eqn:Hft; [discriminate |].
  destruct t as [| c' t']; [reflexivity |].
  by rewrite IH.
Qed.

Lemma tokens_of_head t r :
  find comma t = None -> t <> EmptyString ->
  tokens_of (t +:+ String comma r) = t :: tokens_of r.
Proof.
  intros Hf Hne. rewrite tokens_of_sep.
  assert (tokens_of (t +:+ String comma "") = [t]) as ->; [| reflexivity].
  clear r. induction t as [| c t IH]; [done |].
  rewrite sapp_cons. cbn [find tokens_of] in *.
  destruct (Ascii.eqb c comma); [discriminate |].
  destruct (find comma t) eqn:Hft; [discriminate |].
  destruct t as [| c' t']; [reflexivity |].
  by rewrite IH.
Qed.

Lemma eqb_all_false (s : string) : find comma s <> None \/ find dash s <> None ->
  String.eqb s "all" = false.
Proof.
  intros H. destruct (String.eqb_spec s "all") as [-> | _]; [| reflexivity].
  cbn in H. tauto.
Qed.

(** A spec with one token, free of commas. *)
Lemma parseSpec_single_token tok N :
  find comma tok = None -> tok <> EmptyString -> String.eqb tok "all" = false ->
  parseSpec tok N = parse_token tok N ∅.
Proof.
  intros Hc Hne Hall. unfold parseSpec. rewrite Hall.
  rewrite parse_tokens_list by lia. rewrite tokens_of_single by done.
  cbn [parse_list]. by destruct (parse_token tok N ∅).
Qed.

Lemma parse_token_range a b N idx :
  0 <= a <= INT_MAX -> INT_MIN <= b <= INT_MAX -> N < INT_MAX ->
  exists s, parse_token (show_Z a +:+ "-" +:+ show_Z b) N idx = Ret s
    /\ forall p, p ∈ s <-> p ∈ idx \/ Z.max 1 (Z.min a b) <= p <= Z.min N (Z.max a b).
Proof.
  intros Ha Hb HN. unfold parse_token.
  assert (show_Z a = show_nat a) as Hsa
    by (unfold show_Z; destruct (Z.ltb_spec a 0); [lia | reflexivity]).
  rewrite Hsa. destruct (show_nat_digits a) as [Hd _].
  rewrite find_app by (by apply find_digits_only).
  change (find dash ("-" +:+ show_Z b)) with (Some O). cbn [fmap option_fmap option_map].
  rewrite Nat.add_0_r, substr_to_app.
  change ("-" +:+ show_Z b) with (String dash (show_Z b)).
  rewrite substr_from_app, stoi_show_nat, stoi_show_Z by lia. cbn [obind].
  destruct (Z.ltb_spec b a) as [Hlt | Hge].
  - destruct (insert_range_spec (Z.max b 1) (Z.min a N) idx) as (s & -> & Hs); [lia |].
    exists s. split; [reflexivity |]. intros p. rewrite Hs.
    split; (intros [? | ?]; [by left | right; lia]).
  - destruct (insert_range_spec (Z.max a 1) (Z.min b N) idx) as (s & -> & Hs); [lia |].
    exists s. split; [reflexivity |]. intros p. rewrite Hs.
    split; (intros [? | ?]; [by left | right; lia]).
Qed.

Lemma find_sep_some c s1 r : find c (s1 +:+ String c r) <> None.
Proof.
  induction s1 as [| a s1 IH];
    [rewrite sapp_nil_l; cbn [find]; by rewrite Ascii.eqb_refl |].
  rewrite sapp_cons. cbn [find]. destruct (Ascii.eqb a c); [done |].
  by destruct (find c (s1 +:+ String c r)).
Qed.

Lemma show_Z_nonneg v : 0 <= v -> show_Z v = show_nat v.
Proof. intros H. unfold show_Z. destruct (Z.ltb_spec v 0); [lia | reflexivity]. Qed.

Lemma parse_token_single_dropped v N idx :
  0 <= v <= INT_MAX -> ~ (1 <= v <= N) ->
  parse_token (show_Z v) N idx = Ret idx.
Proof.
  intros Hv Hout. unfold parse_token. rewrite show_Z_nonneg by lia.
  rewrite find_digits_only by (apply show_nat_digits || reflexivity).
  rewrite stoi_show_nat by done. cbn [obind].
  destruct (Z.leb_spec 1 v), (Z.leb_spec v N); cbn [andb]; (reflexivity || lia).
Qed.

(** Closed side conditions are settled by evaluation. *)
Ltac by_eval :=
  solve [ reflexivity
        | vm_compute; reflexivity
        | vm_compute; eauto
        | apply (bool_decide_unpack _); vm_compute; exact I
        | unfold INT_MIN, INT_MAX, STEP; lia
        | vm_compute; lia
        | vm_compute; discriminate ].

(** C3, amended: for a low bound [a >= 0] and any [b], both of type [int],
    and [1 <= N < INT_MAX], the spec "a-b" selects exactly the pages from
    [max 1 (min a b)] to [min N (max a b)]. *)
Theorem parseSpec_range (a b N : Z) :
  0 <= a <= INT_MAX -> INT_MIN <= b <= INT_MAX -> 1 <= N < INT_MAX ->
  selects_clamped_range a b N.
Proof.
  intros Ha Hb HN. unfold selects_clamped_range.
  assert (find comma (show_Z a +:+ "-" +:+ show_Z b) = None) as Hc.
  { rewrite find_app by (by apply find_show_Z).
    change ("-" +:+ show_Z b) with (String dash (show_Z b)). cbn [find].
    replace (Ascii.eqb dash comma) with false by reflexivity.
    by rewrite find_show_Z. }
  assert (find dash (show_Z a +:+ String dash (show_Z b)) <> None) as Hd
    by apply find_sep_some.
  rewrite parseSpec_single_token.
  - destruct (parse_token_range a b N ∅ Ha Hb) as (s & Hs & Hmem); [lia |].
    exists s. split; [done |]. intros p. rewrite Hmem.
    split; [intros [H0 | H1]; [by apply not_elem_of_empty in H0 | done] | by right].
  - done.
  - intros Heq. change ("-" +:+ show_Z b) with (String dash (show_Z b)) in Heq.
    by rewrite Heq in Hd.
  - apply eqb_all_false. by right.
Qed.

Lemma parseSpec_range_witness :
  (0 <= 7 <= INT_MAX) /\ (INT_MIN <= 3 <= INT_MAX) /\ (1 <= 10 < INT_MAX)
  /\ selects_clamped_range 7 3 10.
Proof.
  assert (0 <= 7 <= INT_MAX) as H1 by by_eval.
  assert (INT_MIN <= 3 <= INT_MAX) as H2 by by_eval.
  assert (1 <= 10 < INT_MAX) as H3 by by_eval.
  exact (conj H1 (conj H2 (conj H3 (parseSpec_range 7 3 10 H1 H2 H3)))).
Defined.

(** C3 as stated fails for a negative low bound: in "-3-5" the first dash
    is taken for the separator, the text before it is empty and
    [std::stoi] throws. *)
Lemma negative_low_bound_throws :
  parseSpec (show_Z (-3) +:+ "-" +:+ show_Z 5) 10 = Throw invalid_argument
  /\ ~ selects_clamped_range (-3) 5 10.
Proof.
  assert (parseSpec (show_Z (-3) +:+ "-" +:+ show_Z 5) 10 = Throw invalid_argument)
    as H by (vm_compute; reflexivity).
  split; [exact H |]. intros (s & Hs & _). rewrite H in Hs. discriminate.
Qed.

(** Why the bounds of [parseSpec_range] are there: a bound that does not
    fit [int] makes [std::stoi] throw, and a range that runs up to
    [INT_MAX] overflows the loop counter. *)
Lemma oversized_bound_throws :
  parseSpec (show_Z 2147483648 +:+ "-" +:+ show_Z 5) 10 = Throw out_of_range.
Proof. vm_compute. reflexivity. Qed.

Lemma full_range_overflows :
  parseSpec (show_Z 1 +:+ "-" +:+ show_Z INT_MAX) INT_MAX = Undefined.
Proof. vm_compute. reflexivity. Qed.

(** C5, amended: a single-integer token whose value is 0 or larger than
    the page count (and fits [int]) is dropped: it adds no index and the
    parse goes on. *)
Theorem out_of_range_single_dropped (v N : Z) :
  0 <= v <= INT_MAX -> ~ (1 <= v <= N) -> single_is_dropped v N.
Proof.
  intros Hv Hout. unfold single_is_dropped.
  assert (find comma (show_Z v) = None) as Hc by (by apply find_show_Z).
  assert (show_Z v <> EmptyString) as Hne
    by (rewrite show_Z_nonneg by lia; apply show_nat_digits).
  split; [intros idx; by apply parse_token_single_dropped |]. split.
  - rewrite parseSpec_single_token;
      [by apply parse_token_single_dropped | exact Hc | exact Hne |].
    destruct (String.eqb_spec (show_Z v) "all") as [Heq | _]; [| reflexivity].
    pose proof (show_nat_digits v) as [Hd _].
    rewrite show_Z_nonneg in Heq by lia. rewrite Heq in Hd. discriminate.
  - intros s1 s2.
    change (s1 +:+ "," +:+ show_Z v +:+ "," +:+ s2)
      with (s1 +:+ String comma (show_Z v +:+ String comma s2)).
    change (s1 +:+ "," +:+ s2) with (s1 +:+ String comma s2).
    unfold parseSpec.
    rewrite !eqb_all_false by (left; apply find_sep_some).
    rewrite !parse_tokens_list by lia.
    rewrite (tokens_of_sep s1 (show_Z v +:+ _)), (tokens_of_sep s1 s2).
    rewrite (tokens_of_head _ _ Hc Hne).
    rewrite !parse_list_app.
    destruct (parse_list (tokens_of (s1 +:+ String comma "")) N ∅) as [idx | | |];
      cbn [obind]; try reflexivity.
    cbn [parse_list]. by rewrite parse_token_single_dropped.
Qed.

Lemma out_of_range_single_dropped_witness :
  (0 <= 11 <= INT_MAX) /\ ~ (1 <= 11 <= 10) /\ single_is_dropped 11 10.
Proof.
  assert (0 <= 11 <= INT_MAX) as H1 by by_eval.
  assert (~ (1 <= 11 <= 10)) as H2 by lia.
  exact (conj H1 (conj H2 (out_of_range_single_dropped 11 10 H1 H2))).
Defined.

(** C5 as stated fails for a negative value: the token "-5" contains a
    dash, is read as a range with an empty low bound, and [std::stoi]
    throws. *)
Lemma negative_single_token_throws :
  parseSpec (show_Z (-5)) 10 = Throw invalid_argument
  /\ ~ single_is_dropped (-5) 10.
Proof.
  assert (parseSpec (show_Z (-5)) 10 = Throw invalid_argument)
    as H by (vm_compute; reflexivity).
  split; [exact H |]. intros (_ & Hs & _). rewrite H in Hs. discriminate.
Qed.

(** ** Facts about the world and the monad *)

Lemma bind_run {A B} (m : M A) (k : A -> M B) w a w' :
  m w = (Ret a, w') -> (m ≫= k) w = k a w'.
Proof. intros H. unfold mbind, M_bind. by rewrite H. Qed.

Lemma world_eq w1 w2 :
  files w1 = files w2 -> stream w1 = stream w2 -> calls w1 = calls w2 ->
  cerr w1 = cerr w2 -> cout w1 = cout w2 -> w1 = w2.
Proof. destruct w1, w2; cbn; intros; by subst. Qed.

Lemma add_calls_nil w : add_calls [] w = w.
Proof. apply world_eq; cbn; auto using app_nil_r. Qed.

Lemma add_calls_app es1 es2 w :
  add_calls es2 (add_calls es1 w) = add_calls (es1 ++ es2) w.
Proof. apply world_eq; cbn; auto using app_assoc. Qed.

Lemma call_run e w : call e w = (Ret tt, add_calls [e] w).
Proof. reflexivity. Qed.

Lemma stamp_page_run wtxt p w :
  stamp_page wtxt p w = (Ret tt, add_calls (stamp_events wtxt p) w).
Proof.
  unfold stamp_page.
  repeat (erewrite bind_run by apply call_run).
  rewrite call_run, !add_calls_app. reflexivity.
Qed.

Section BatchLoop.

Context (x : Extern) (wanted : gset Z) (wtxt : list Z).

Lemma page_step_run p w :
  page_step x wanted wtxt p w
  = (Ret tt, add_calls (page_events x wanted wtxt p) w).
Proof.
  unfold page_step, page_events. destruct (decide (p ∈ wanted)).
  - erewrite bind_run by apply call_run.
    destruct (load_page x (p - 1)).
    + by rewrite stamp_page_run, add_calls_app.
    + reflexivity.
  - by rewrite add_calls_nil.
Qed.

Lemma for_each_page_step l w :
  for_each l (page_step x wanted wtxt) w
  = (Ret tt, add_calls (l ≫= page_events x wanted wtxt) w).
Proof.
  revert w. induction l as [| p l IH]; intros w; cbn [for_each].
  - by rewrite add_calls_nil.
  - erewrite bind_run by apply page_step_run.
    by rewrite IH, add_calls_app.
Qed.

Lemma page_loop_run s e w :
  e < INT_MAX ->
  page_loop x wanted wtxt s e w
  = (Ret tt, add_calls (batch_page_events x wanted wtxt (s, e)) w).
Proof.
  intros He. unfold page_loop.
  replace (e =? INT_MAX) with false by (symmetry; apply Z.eqb_neq; lia).
  rewrite andb_false_r. apply for_each_page_step.
Qed.

Lemma fwrite_run data w : fwrite data w = (Ret tt, (fwrite data w).2).
Proof. unfold fwrite. by destruct (stream w) as [[path pos] |]. Qed.

Lemma for_each_fwrite blocks w :
  for_each blocks fwrite w = (Ret tt, write_blocks blocks w).
Proof.
  unfold write_blocks. revert w.
  induction blocks as [| b blocks IH]; intros w; cbn [for_each]; [reflexivity |].
  erewrite bind_run by apply fwrite_run. by rewrite IH.
Qed.

Lemma save_incremental_run w :
  save_incremental x w
  = let r := save_with_version x (save_calls w) in
    (Ret r.2, add_calls [FPDF_SaveWithVersion FPDF_INCREMENTAL 17 r.2]
                        (write_blocks r.1 w)).
Proof.
  unfold save_incremental. destruct (save_with_version x (save_calls w)) as [blocks ok].
  erewrite bind_run by apply for_each_fwrite.
  erewrite bind_run by apply call_run. reflexivity.
Qed.

(** ** The batch loop walks the list of batches *)

Lemma start_in_range n (i : nat) :
  1 + STEP * Z.of_nat i <= n <-> (i < num_batches n)%nat.
Proof.
  unfold num_batches, STEP.
  pose proof (Z.div_mod (n + 40 - 1) 40 ltac:(lia)) as Hdm.
  pose proof (Z.mod_pos_bound (n + 40 - 1) 40 ltac:(lia)) as Hm.
  lia.
Qed.

Lemma num_batches_le n : (num_batches n <= Z.to_nat n)%nat.
Proof.
  unfold num_batches, STEP.
  pose proof (Z.div_mod (n + 40 - 1) 40 ltac:(lia)) as Hdm.
  pose proof (Z.mod_pos_bound (n + 40 - 1) 40 ltac:(lia)) as Hm.
  lia.
Qed.

Lemma batches_from_cons n i :
  (i < num_batches n)%nat ->
  batches_from n i = batch n i :: batches_from n (S i).
Proof.
  intros Hi. unfold batches_from.
  replace (num_batches n - i)%nat with (S (num_batches n - S i)) by lia.
  reflexivity.
Qed.

Lemma batches_from_nil n i :
  (num_batches n <= i)%nat -> batches_from n i = [].
Proof.
  intros Hi. unfold batches_from.
  by replace (num_batches n - i)%nat with O by lia.
Qed.

Lemma batch_loop_batches n fuel i w :
  n <= INT_MAX - STEP ->
  (num_batches n - i < fuel)%nat ->
  batch_loop fuel x wanted wtxt n (1 + STEP * Z.of_nat i) w
  = run_batches x wanted wtxt (batches_from n i) w.
Proof.
  intros Hn. revert i w. induction fuel as [| fuel IH]; intros i w Hf; [lia |].
  cbn [batch_loop]. pose proof (start_in_range n i) as Hr.
  destruct (Z.leb_spec (1 + STEP * Z.of_nat i) n) as [Hle | Hgt].
  - rewrite batches_from_cons by (apply Hr; lia). cbn [run_batches].
    replace (INT_MAX <? 1 + STEP * Z.of_nat i + STEP) with false
      by (symmetry; apply Z.ltb_ge; lia).
    replace (1 + STEP * Z.of_nat i + STEP - 1) with (STEP * Z.of_nat i + STEP) by lia.
    erewrite bind_run by (apply page_loop_run; unfold STEP in *; lia).
    erewrite bind_run by apply save_incremental_run.
    cbn zeta. unfold batch.
    destruct (save_with_version x _) as [blocks ok]. cbn [fst snd].
    destruct ok; cbn [negb].
    + replace (1 + STEP * Z.of_nat i + STEP) with (1 + STEP * Z.of_nat (S i)) by lia.
      apply IH. lia.
    + reflexivity.
  - rewrite batches_from_nil by lia. reflexivity.
Qed.

End BatchLoop.

(** ** The verbatim copy *)

Lemma read_chunk_spec n src :
  src = (read_chunk n src).1 ++ (read_chunk n src).2
  /\ (N.of_nat (length (read_chunk n src).1) <= n)%N
  /\ (N.of_nat (length (read_chunk n src).1) <> n -> (read_chunk n src).2 = []).
Proof.
  revert n. induction src as [| b src IH]; intros n; cbn [read_chunk].
  - cbn. split; [reflexivity | split; [lia | done]].
  - destruct (N.eqb_spec n 0) as [-> | Hn];
      [cbn; split; [reflexivity | split; [lia | done]] |].
    destruct (IH (N.pred n)) as (H1 & H2 & H3).
    destruct (read_chunk (N.pred n) src) as [c r]. cbn [fst snd length] in *.
    split; [cbn; by rewrite H1 at 1 | split; [lia | intros H; apply H3; lia]].
Qed.

Lemma write_at_end data content :
  write_at (length content) data content = content ++ data.
Proof.
  unfold write_at. rewrite firstn_all, Nat.sub_diag.
  rewrite drop_ge by lia. cbn. by rewrite app_nil_r.
Qed.

Lemma fwrite_at_end data path c w :
  stream w = Some (path, length c) -> files w !! path = Some c ->
  fwrite data w
  = (Ret tt, set_files (<[path := c ++ data]> (files w))
                       (Some (path, length (c ++ data))) w).
Proof.
  intros Hs Hf. unfold fwrite. rewrite Hs. do 2 f_equal.
  - apply map_eq. intros k. rewrite lookup_alter, lookup_insert.
    destruct (decide (path = k)) as [<- | _]; [| reflexivity].
    by rewrite Hf, <- write_at_end.
  - by rewrite length_app.
Qed.

Lemma copy_loop_run fuel src path c w :
  (length src < fuel)%nat ->
  stream w = Some (path, length c) -> files w !! path = Some c ->
  copy_loop fuel src w
  = (Ret tt, set_files (<[path := c ++ src]> (files w))
                       (Some (path, length (c ++ src))) w).
Proof.
  revert src c w. induction fuel as [| fuel IH]; intros src c w Hf Hs Hc; [lia |].
  cbn [copy_loop]. destruct (read_chunk_spec BUF src) as (Hsrc & Hle & Hshort).
  destruct (read_chunk BUF src) as [chunk rest]. cbn [fst snd] in *.
  erewrite bind_run by (by apply fwrite_at_end).
  destruct (N.eqb_spec (N.of_nat (length chunk)) BUF) as [Hfull | Hpart].
  - erewrite IH.
    + cbn [files set_files]. rewrite insert_insert_eq, <- app_assoc, <- Hsrc.
      reflexivity.
    + assert (length src = length chunk + length rest)%nat
        by (by rewrite Hsrc at 1; rewrite length_app).
      unfold BUF in Hfull. lia.
    + reflexivity.
    + cbn. apply lookup_insert_eq.
  - rewrite (Hshort Hpart), app_nil_r in Hsrc. by subst.
Qed.

Lemma prepare_output_run inPath outPath src w :
  <[outPath := []]> (files w) !! inPath = Some src ->
  prepare_output inPath (set_files (<[outPath := []]> (files w)) (Some (outPath, O)) w)
  = (Ret tt, set_files (<[outPath := src]> (files w)) (Some (outPath, O)) w).
Proof.
  intros Hin. unfold prepare_output. cbn [files set_files]. rewrite Hin.
  erewrite bind_run.
  2: { apply (copy_loop_run _ src outPath []); [lia | reflexivity |].
       cbn. apply lookup_insert_eq. }
  unfold rewind. cbn. by rewrite insert_insert_eq.
Qed.

(** ** The whole routine on the path that reaches the batch loop *)

Lemma stamp_run x spec text inPath outPath wanted src w :
  reaches_loop x spec inPath outPath wanted src w ->
  InplaceIncrementalStamp x spec text inPath outPath w =
    match run_batches x wanted (u16 text) (batches (get_page_count x))
                      (at_loop outPath src w) with
    | (Ret true, w') =>
        (Ret true, set_files (files w') None
                     (add_calls [FPDF_CloseDocument; FPDF_DestroyLibrary] w'))
    | (r, w') => (r, set_files (files w') None w')
    end.
Proof.
  intros (Hload & Hparse & Hne & Hopen & Hin & Hn).
  unfold InplaceIncrementalStamp. rewrite Hload. cbn [negb].
  do 3 (erewrite bind_run by apply call_run). rewrite !add_calls_app. cbn [app].
  rewrite Hparse. erewrite bind_run by reflexivity.
  destruct (decide (wanted = ∅)) as [? | _]; [done |].
  unfold FileWriter_scope. rewrite Hopen.
  cbn [files add_calls].
  match goal with |- context [set_files ?f ?s ?w0] =>
    change (set_files f s w0) with
      (set_files (<[outPath := []]> (files w0)) (Some (outPath, O)) w0) end.
  erewrite bind_run by (by apply prepare_output_run).
  unfold mbind at 1. unfold M_bind.
  pose proof (num_batches_le (get_page_count x)) as Hfuel.
  match goal with |- context [batch_loop ?f x wanted ?t ?n 1 ?w0] =>
    pose proof (batch_loop_batches x wanted t n f O w0 Hn ltac:(lia)) as Hloop end.
  change (1 + STEP * Z.of_nat 0) with 1 in Hloop. rewrite Hloop.
  fold (batches (get_page_count x)). unfold at_loop.
  destruct (run_batches _ _ _ _ _) as [[[] | | |] w']; try reflexivity.
  cbn [negb]. do 2 (erewrite bind_run by apply call_run).
  rewrite add_calls_app. reflexivity.
Qed.

(** ** What a walk over the batches leaves in the world *)

Section Walk.

Context (x : Extern) (wanted : gset Z) (wtxt : list Z).

Lemma filter_save_page_events p :
  List.filter is_save (page_events x wanted wtxt p) = [].
Proof.
  unfold page_events. destruct (decide (p ∈ wanted)); [| reflexivity].
  by destruct (load_page x (p - 1)).
Qed.

Lemma filter_save_batch_page_events b :
  List.filter is_save (batch_page_events x wanted wtxt b) = [].
Proof.
  unfold batch_page_events. induction (pages_of b) as [| p l IH]; [reflexivity |].
  by rewrite bind_cons, List.filter_app, filter_save_page_events, IH.
Qed.

Lemma save_calls_add_calls es w :
  save_calls (add_calls es w)
  = (save_calls w + length (List.filter is_save es))%nat.
Proof. unfold save_calls. cbn. by rewrite List.filter_app, length_app. Qed.

Lemma write_blocks_frame blocks w :
  calls (write_blocks blocks w) = calls w
  /\ cerr (write_blocks blocks w) = cerr w
  /\ cout (write_blocks blocks w) = cout w.
Proof.
  unfold write_blocks. revert w.
  induction blocks as [| b blocks IH]; intros w; cbn [for_each]; [done |].
  erewrite bind_run by apply fwrite_run.
  destruct (IH (fwrite b w).2) as (-> & -> & ->).
  unfold fwrite. by destruct (stream w) as [[path pos] |].
Qed.

Lemma save_calls_write_blocks blocks w :
  save_calls (write_blocks blocks w) = save_calls w.
Proof. unfold save_calls. by rewrite (proj1 (write_blocks_frame blocks w)). Qed.

Lemma saves_batch_events ok bs :
  length (List.filter is_save (bs ≫= batch_events x wanted wtxt ok)) = length bs.
Proof.
  induction bs as [| b bs IH]; [reflexivity |].
  rewrite bind_cons, List.filter_app, length_app, IH. unfold batch_events.
  by rewrite List.filter_app, filter_save_batch_page_events.
Qed.

Lemma run_batches_ok bs w :
  (forall k, (save_with_version x k).2 = true) ->
  (run_batches x wanted wtxt bs w).1 = Ret true
  /\ calls (run_batches x wanted wtxt bs w).2
     = calls w ++ (bs ≫= batch_events x wanted wtxt true)
  /\ cerr (run_batches x wanted wtxt bs w).2 = cerr w
  /\ cout (run_batches x wanted wtxt bs w).2 = cout w.
Proof.
  intros Hok. revert w. induction bs as [| b bs IH]; intros w; cbn [run_batches].
  - cbn. by rewrite app_nil_r.
  - rewrite Hok.
    match goal with |- context [run_batches _ _ _ bs ?w2] =>
      destruct (IH w2) as (-> & -> & -> & ->) end.
    cbn [calls cerr cout add_calls].
    destruct (write_blocks_frame
                (save_with_version x
                   (save_calls (add_calls (batch_page_events x wanted wtxt b) w))).1
                (add_calls (batch_page_events x wanted wtxt b) w)) as (-> & -> & ->).
    cbn [calls cerr cout add_calls]. rewrite bind_cons. unfold batch_events at 2.
    by rewrite <- !app_assoc.
Qed.

Lemma run_batches_fail bs k w :
  (k < length bs)%nat ->
  (forall j, (j < k)%nat -> (save_with_version x (save_calls w + j)).2 = true) ->
  (save_with_version x (save_calls w + k)).2 = false ->
  (run_batches x wanted wtxt bs w).1 = Ret false
  /\ (exists b, bs !! k = Some b
      /\ calls (run_batches x wanted wtxt bs w).2
         = calls w ++ (take k bs ≫= batch_events x wanted wtxt true)
             ++ batch_events x wanted wtxt false b)
  /\ cerr (run_batches x wanted wtxt bs w).2 = cerr w ++ ["save err"].
Proof.
  revert k w. induction bs as [| b bs IH]; intros k w Hk Hbefore Hfail; [cbn in Hk; lia |].
  cbn [run_batches].
  assert (save_calls (add_calls (batch_page_events x wanted wtxt b) w) = save_calls w)
    as Hsc by (rewrite save_calls_add_calls, filter_save_batch_page_events; cbn; lia).
  rewrite Hsc.
  destruct (write_blocks_frame (save_with_version x (save_calls w)).1
              (add_calls (batch_page_events x wanted wtxt b) w)) as (Hc & He & _).
  destruct k as [| k].
  - rewrite Nat.add_0_r in Hfail. rewrite Hfail. cbn [fst snd calls cerr add_cerr add_calls].
    rewrite Hc, He. cbn [calls cerr add_calls].
    split; [reflexivity |]. split; [| reflexivity].
    exists b. split; [reflexivity |]. cbn [take]. unfold batch_events.
    by rewrite <- app_assoc.
  - pose proof (Hbefore O ltac:(lia)) as H0. rewrite Nat.add_0_r in H0. rewrite H0.
    match goal with |- context [run_batches _ _ _ bs ?w2] =>
      destruct (IH k w2) as (-> & (b' & Hb' & ->) & ->) end.
    + cbn in Hk. lia.
    + intros j Hj. rewrite save_calls_add_calls, save_calls_write_blocks, Hsc.
      cbn [List.filter is_save length].
      replace (save_calls w + 1 + j)%nat with (save_calls w + S j)%nat by lia.
      apply Hbefore. lia.
    + rewrite save_calls_add_calls, save_calls_write_blocks, Hsc.
      cbn [List.filter is_save length].
      by replace (save_calls w + 1 + k)%nat with (save_calls w + S k)%nat by lia.
    + cbn [calls cerr add_calls]. rewrite Hc, He. cbn [calls cerr add_calls].
      split; [reflexivity |]. split; [| reflexivity].
      exists b'. split; [exact Hb' |].
      cbn [take]. rewrite bind_cons. unfold batch_events at 3.
      by rewrite <- !app_assoc.
Qed.

End Walk.

(** ** The batches partition the page range *)

Lemma pages_of_batches_from n (d i : nat) :
  (num_batches n - i)%nat = d -> (i <= num_batches n)%nat ->
  batches_from n i ≫= pages_of
  = seqZ (1 + STEP * Z.of_nat i) (n - STEP * Z.of_nat i).
Proof.
  revert i. induction d as [| d IH]; intros i Hd Hi.
  - rewrite batches_from_nil by lia. symmetry. apply seqZ_nil.
    pose proof (start_in_range n i). lia.
  - rewrite batches_from_cons by lia. rewrite bind_cons, (IH (S i)) by lia.
    pose proof (proj2 (start_in_range n i) ltac:(lia)) as Hle.
    unfold pages_of, batch. cbn [fst snd]. unfold STEP in *.
    destruct (Z.le_gt_cases (40 * Z.of_nat i + 40) n) as [Hfull | Hlast].
    + rewrite Z.min_l by lia.
      replace (40 * Z.of_nat i + 40 - (1 + 40 * Z.of_nat i) + 1) with 40 by lia.
      replace (n - 40 * Z.of_nat i) with (40 + (n - 40 * Z.of_nat (S i))) by lia.
      rewrite (seqZ_app (1 + 40 * Z.of_nat i) 40) by lia.
      by replace (1 + 40 * Z.of_nat i + 40) with (1 + 40 * Z.of_nat (S i)) by lia.
    + rewrite Z.min_r by lia.
      rewrite (seqZ_nil _ (n - 40 * Z.of_nat (S i))) by lia.
      rewrite app_nil_r.
      by replace (n - (1 + 40 * Z.of_nat i) + 1) with (n - 40 * Z.of_nat i) by lia.
Qed.

Lemma batches_partition n : batches n ≫= pages_of = seqZ 1 n.
Proof.
  unfold batches. rewrite (pages_of_batches_from n (num_batches n) O) by lia.
  f_equal; lia.
Qed.

Lemma batches_lookup n (i : nat) b :
  batches n !! i = Some b <-> (i < num_batches n)%nat /\ b = batch n i.
Proof.
  unfold batches, batches_from. rewrite list_lookup_fmap, Nat.sub_0_r.
  destruct (seq 0 (num_batches n) !! i) as [j |] eqn:Hj; cbn.
  - apply lookup_seq in Hj as [-> Hlt]. cbn. split; [intros [= <-]; done | intros [_ ->]; done].
  - apply lookup_seq_ge' in Hj || idtac. split; [done |].
    intros [Hlt _]. rewrite lookup_seq_lt in Hj by done. discriminate.
Qed.

Lemma length_batches n : length (batches n) = num_batches n.
Proof. unfold batches, batches_from. by rewrite length_fmap, length_seq, Nat.sub_0_r. Qed.

Lemma batches_sizes n :
  Forall (fun b => 1 <= b.1 /\ b.1 <= b.2 <= n /\ b.2 - b.1 + 1 <= STEP) (batches n).
Proof.
  apply Forall_lookup. intros i b Hb. apply batches_lookup in Hb as [Hi ->].
  apply start_in_range in Hi. unfold batch, STEP in *. cbn [fst snd]. lia.
Qed.

(** ** The command line *)

Lemma main_run x inPath spec outPath text w :
  is_Some (files w !! inPath) ->
  main x (argv inPath spec outPath text) w =
    match InplaceIncrementalStamp x spec text inPath outPath w with
    | (Ret true, w') => (Ret 0, add_cout (wrote +:+ outPath) w')
    | (Ret false, w') => (Ret 1, w')
    | (Throw e, w') => (Ret 1, add_cerr (what e) w')
    | (Undefined, w') => (Undefined, w')
    | (OutOfFuel, w') => (OutOfFuel, w')
    end.
Proof.
  intros [src Hsrc]. unfold main, argv.
  change (default "all" ([spec; outPath; text] !! 0%nat)) with spec.
  change (default "stamped.pdf" ([spec; outPath; text] !! 1%nat)) with outPath.
  change (default "Stamped by Asem" ([spec; outPath; text] !! 2%nat)) with text.
  cbv zeta. rewrite Hsrc.
  by destruct (InplaceIncrementalStamp x spec text inPath outPath w)
    as [[[] | | |] w'].
Qed.

Lemma stamp_empty_selection x spec text inPath outPath w :
  load_custom_document x = true ->
  parseSpec spec (get_page_count x) = Ret ∅ ->
  InplaceIncrementalStamp x spec text inPath outPath w
  = (Ret false,
     add_cerr "no pages matched"
       (add_calls [FPDF_InitLibraryWithConfig; FPDF_LoadCustomDocument true;
                   FPDF_GetPageCount] w)).
Proof.
  intros Hload Hparse. unfold InplaceIncrementalStamp. rewrite Hload. cbn [negb].
  do 3 (erewrite bind_run by apply call_run). rewrite !add_calls_app. cbn [app].
  rewrite Hparse. erewrite bind_run by reflexivity.
  destruct (decide (∅ = ∅)) as [_ | ?]; [| done].
  erewrite bind_run by reflexivity. reflexivity.
Qed.

Lemma parseSpec_empty N : parseSpec "" N = Ret ∅.
Proof. reflexivity. Qed.

(** After the copy the stream is at offset 0, not at the end of the
    copy, although the output holds the [length src] bytes of the input. *)
Lemma prepare_output_rewinds_to_zero inPath outPath src w :
  <[outPath := []]> (files w) !! inPath = Some src ->
  let w' := (prepare_output inPath
               (set_files (<[outPath := []]> (files w)) (Some (outPath, O)) w)).2 in
  files w' !! outPath = Some src /\ stream w' = Some (outPath, O).
Proof.
  intros Hin. rewrite (prepare_output_run _ _ _ _ Hin). cbn.
  split; [apply lookup_insert_eq | reflexivity].
Qed.

(** A block written at offset 0 replaces the first bytes of the file. *)
Lemma fwrite_at_zero path src data w :
  stream w = Some (path, O) -> files w !! path = Some src ->
  files (fwrite data w).2 !! path = Some (data ++ drop (length data) src).
Proof.
  intros Hs Hf. unfold fwrite. rewrite Hs. cbn [snd files set_files].
  rewrite lookup_alter, decide_True, Hf by reflexivity. cbn.
  unfold write_at. by rewrite take_0.
Qed.

(** ** The claims about failing and leaving *)

(** C1: the design document asks that the output keep the input as its
    prefix and that saves append after it.  The routine rewinds the stream
    to offset 0 after the copy, so the first save writes over the copy: on
    a one-page document with input "ABCD" and a save that writes "xy", the
    run succeeds and the output is "xyCD". *)
Theorem first_save_overwrites_copy :
  let r := main (sample_doc 1 (fun _ => false) (fun _ => false))
                (argv "in.pdf" "all" "out.pdf" "t") disk in
  r.1 = Ret 0
  /\ files disk !! "in.pdf" = Some [x41; x42; x43; x44]
  /\ files r.2 !! "out.pdf" = Some [x78; x79; x43; x44].
Proof. vm_compute. auto. Qed.

(** C2, amended: with the empty spec and a document that loads, the run
    fails with "no pages matched" and exit status 1 before the output is
    opened: no file is created or written. *)
Theorem empty_spec_fails_before_output x inPath outPath text w :
  load_custom_document x = true -> is_Some (files w !! inPath) ->
  empty_spec_leaves_files x inPath outPath text w.
Proof.
  intros Hload Hin. unfold empty_spec_leaves_files.
  rewrite (main_run _ _ _ _ _ _ Hin).
  rewrite (stamp_empty_selection _ _ _ _ _ _ Hload (parseSpec_empty _)).
  cbn. auto.
Qed.

Lemma empty_spec_fails_before_output_witness :
  load_custom_document (sample_doc 1 (fun _ => false) (fun _ => false)) = true
  /\ is_Some (files disk !! "in.pdf")
  /\ empty_spec_leaves_files (sample_doc 1 (fun _ => false) (fun _ => false))
       "in.pdf" "out.pdf" "t" disk.
Proof.
  assert (is_Some (files disk !! "in.pdf")) as Hin by by_eval.
  exact (conj eq_refl (conj Hin
    (empty_spec_fails_before_output
       (sample_doc 1 (fun _ => false) (fun _ => false))
       "in.pdf" "out.pdf" "t" disk eq_refl Hin))).
Defined.

(** C2 as stated fails: after the run with the empty spec the output
    file does not exist, while the input holds "ABCD". *)
Lemma empty_spec_output_absent :
  files (main (sample_doc 1 (fun _ => false) (fun _ => false))
              (argv "in.pdf" "" "out.pdf" "t") disk).2 !! "out.pdf" = None
  /\ ~ empty_spec_leaves_copy (sample_doc 1 (fun _ => false) (fun _ => false))
         "in.pdf" "out.pdf" "t" disk.
Proof.
  assert (files (main (sample_doc 1 (fun _ => false) (fun _ => false))
              (argv "in.pdf" "" "out.pdf" "t") disk).2 !! "out.pdf" = None) as H
    by (vm_compute; reflexivity).
  split; [exact H |]. intros (_ & _ & Hout). cbv zeta in Hout.
  rewrite H in Hout. vm_compute in Hout. discriminate.
Qed.

(** C8: the document is closed and the library released only on the path
    that runs to the end.  With the empty spec, with a failing save and
    with a document that does not load, the library was initialised once
    and neither [FPDF_CloseDocument] nor [FPDF_DestroyLibrary] is called;
    the complete run calls each once. *)
Theorem early_exits_skip_cleanup :
  let ok := sample_doc 1 (fun _ => false) (fun _ => false) in
  let r0 := main ok (argv "in.pdf" "all" "out.pdf" "t") disk in
  let r1 := main ok (argv "in.pdf" "" "out.pdf" "t") disk in
  let r2 := main (sample_doc 1 (fun _ => false) (fun _ => true))
                 (argv "in.pdf" "all" "out.pdf" "t") disk in
  let r3 := main unloadable_doc (argv "in.pdf" "all" "out.pdf" "t") disk in
  let released r :=
    (count_call FPDF_CloseDocument (calls r), count_call FPDF_DestroyLibrary (calls r)) in
  (r0.1 = Ret 0 /\ released r0.2 = (1, 1)%nat)
  /\ (r1.1 = Ret 1 /\ cerr r1.2 = ["no pages matched"]
      /\ count_call (FPDF_LoadCustomDocument true) (calls r1.2) = 1%nat
      /\ released r1.2 = (0, 0)%nat)
  /\ (r2.1 = Ret 1 /\ cerr r2.2 = ["save err"]
      /\ count_call (FPDF_LoadCustomDocument true) (calls r2.2) = 1%nat
      /\ released r2.2 = (0, 0)%nat)
  /\ (r3.1 = Ret 1 /\ cerr r3.2 = ["Load err 3"]
      /\ count_call FPDF_InitLibraryWithConfig (calls r3.2) = 1%nat
      /\ released r3.2 = (0, 0)%nat).
Proof. vm_compute. repeat split. Qed.

(** C10: on a document with no pages the spec "all" selects nothing, and
    the run fails with "no pages matched" and exit status 1. *)
Theorem all_on_empty_document_fails x inPath outPath text w :
  load_custom_document x = true -> get_page_count x = 0 ->
  is_Some (files w !! inPath) ->
  parseSpec "all" (get_page_count x) = Ret ∅
  /\ (InplaceIncrementalStamp x "all" text inPath outPath w).1 = Ret false
  /\ (main x (argv inPath "all" outPath text) w).1 = Ret 1
  /\ cerr (main x (argv inPath "all" outPath text) w).2 = cerr w ++ ["no pages matched"]
  /\ files (main x (argv inPath "all" outPath text) w).2 = files w.
Proof.
  intros Hload Hn Hin.
  assert (parseSpec "all" (get_page_count x) = Ret ∅) as Hp by (by rewrite Hn).
  rewrite (main_run _ _ _ _ _ _ Hin).
  rewrite (stamp_empty_selection _ _ _ _ _ _ Hload Hp). cbn. auto.
Qed.

Lemma all_on_empty_document_fails_witness :
  let x := sample_doc 0 (fun _ => false) (fun _ => false) in
  load_custom_document x = true /\ get_page_count x = 0
  /\ is_Some (files disk !! "in.pdf")
  /\ parseSpec "all" (get_page_count x) = Ret ∅
  /\ (InplaceIncrementalStamp x "all" "t" "in.pdf" "out.pdf" disk).1 = Ret false
  /\ (main x (argv "in.pdf" "all" "out.pdf" "t") disk).1 = Ret 1
  /\ cerr (main x (argv "in.pdf" "all" "out.pdf" "t") disk).2
     = cerr disk ++ ["no pages matched"]
  /\ files (main x (argv "in.pdf" "all" "out.pdf" "t") disk).2 = files disk.
Proof.
  assert (is_Some (files disk !! "in.pdf")) as Hin by by_eval.
  exact (conj eq_refl (conj eq_refl (conj Hin
    (all_on_empty_document_fails (sample_doc 0 (fun _ => false) (fun _ => false))
       "in.pdf" "out.pdf" "t" disk eq_refl eq_refl Hin)))).
Defined.

(** ** Selected pages exist *)

Lemma insert_range_bounds a b N idx s :
  insert_range a b idx = Ret s -> 1 <= a -> b <= N ->
  (forall p, p ∈ idx -> 1 <= p <= N) -> forall p, p ∈ s -> 1 <= p <= N.
Proof.
  unfold insert_range. destruct (_ && _); [discriminate |].
  intros [= <-] Ha Hb Hidx p Hp.
  apply elem_of_foldl_insert in Hp as [Hp | Hp]; [by apply Hidx |].
  apply elem_of_seqZ in Hp. lia.
Qed.

Lemma parse_token_bounds tok N idx s :
  parse_token tok N idx = Ret s ->
  (forall p, p ∈ idx -> 1 <= p <= N) -> forall p, p ∈ s -> 1 <= p <= N.
Proof.
  unfold parse_token. intros Hs Hidx. destruct (find dash tok) as [d |].
  - destruct (stoi (substr_to tok d)) as [a | | |]; cbn [obind] in Hs; try discriminate.
    destruct (stoi (substr_from tok (S d))) as [b | | |]; cbn [obind] in Hs;
      try discriminate.
    destruct (b <? a); eapply insert_range_bounds; eauto; lia.
  - destruct (stoi tok) as [v | | |]; cbn [obind] in Hs; try discriminate.
    injection Hs as <-.
    destruct (Z.leb_spec 1 v), (Z.leb_spec v N); cbn [andb]; auto.
    intros p Hp. apply elem_of_union in Hp as [Hp | Hp]; [| by apply Hidx].
    apply elem_of_singleton in Hp. lia.
Qed.

Lemma parse_tokens_bounds fuel ss N idx s :
  parse_tokens fuel ss N idx = Ret s ->
  (forall p, p ∈ idx -> 1 <= p <= N) -> forall p, p ∈ s -> 1 <= p <= N.
Proof.
  revert ss idx. induction fuel as [| fuel IH]; intros ss idx Hs Hidx; [discriminate |].
  cbn [parse_tokens] in Hs. destruct (getline ss comma) as [[tok rest] |].
  - destruct (parse_token tok N idx) as [idx' | | |] eqn:Htok; cbn [obind] in Hs;
      try discriminate.
    eapply IH; [exact Hs |]. eapply parse_token_bounds; eauto.
  - by injection Hs as <-.
Qed.

Lemma parseSpec_bounds spec N s :
  parseSpec spec N = Ret s -> forall p, p ∈ s -> 1 <= p <= N.
Proof.
  unfold parseSpec. intros Hs. destruct (String.eqb spec "all").
  - eapply insert_range_bounds; [exact Hs | lia | lia |]. intros p Hp.
    by apply not_elem_of_empty in Hp.
  - eapply parse_tokens_bounds; [exact Hs |]. intros p Hp.
    by apply not_elem_of_empty in Hp.
Qed.

(** ** Stamps and saves of a run *)

Lemma steps_app es1 es2 : steps (es1 ++ es2) = steps es1 ++ steps es2.
Proof. apply omap_app. Qed.

Section Steps.

Context (x : Extern) (wanted : gset Z) (wtxt : list Z).

Lemma steps_page_events p :
  steps (page_events x wanted wtxt p)
  = if bool_decide (p ∈ wanted) && load_page x (p - 1) then [Stamped p] else [].
Proof.
  unfold page_events. destruct (decide (p ∈ wanted)) as [Hin | Hout].
  - rewrite bool_decide_eq_true_2 by done.
    destruct (load_page x (p - 1)); cbn; [by rewrite Z.sub_add | reflexivity].
  - by rewrite bool_decide_eq_false_2.
Qed.

Lemma steps_batch_page_events b :
  steps (batch_page_events x wanted wtxt b) = Stamped <$> stampable x wanted b.
Proof.
  unfold batch_page_events, stampable.
  induction (pages_of b) as [| p l IH]; [reflexivity |].
  rewrite bind_cons, steps_app, steps_page_events, IH. cbn [List.filter].
  by destruct (bool_decide (p ∈ wanted) && load_page x (p - 1)).
Qed.

Lemma steps_batch_events ok bs :
  steps (bs ≫= batch_events x wanted wtxt ok)
  = bs ≫= fun b => (Stamped <$> stampable x wanted b) ++ [Saved ok].
Proof.
  induction bs as [| b bs IH]; [reflexivity |].
  rewrite !bind_cons, steps_app, IH. unfold batch_events at 1.
  by rewrite steps_app, steps_batch_page_events.
Qed.

Lemma elem_of_stampable b p :
  p ∈ stampable x wanted b
  <-> p ∈ pages_of b /\ p ∈ wanted /\ load_page x (p - 1) = true.
Proof.
  unfold stampable. rewrite !list_elem_of_In, List.filter_In, andb_true_iff.
  by rewrite bool_decide_eq_true.
Qed.

Lemma stamped_in_batches n p :
  Stamped p ∈ steps (batches n ≫= batch_events x wanted wtxt true)
  <-> 1 <= p <= n /\ p ∈ wanted /\ load_page x (p - 1) = true.
Proof.
  rewrite steps_batch_events, list_elem_of_bind.
  assert (p ∈ seqZ 1 n <-> 1 <= p <= n) as Hseq by (rewrite elem_of_seqZ; lia).
  rewrite <- Hseq, <- batches_partition, list_elem_of_bind. split.
  - intros (b & Hp & Hb). apply elem_of_app in Hp as [Hp | Hp].
    + apply list_elem_of_fmap in Hp as (q & [= ->] & Hq).
      apply elem_of_stampable in Hq as (Hq & Hw & Hl). eauto.
    + apply list_elem_of_singleton in Hp. discriminate.
  - intros ((b & Hp & Hb) & Hw & Hl). exists b. split; [| done].
    apply elem_of_app. left. apply list_elem_of_fmap. exists p.
    split; [reflexivity |]. by apply elem_of_stampable.
Qed.

Lemma stampable_all b :
  (forall p, p ∈ pages_of b -> p ∈ wanted /\ load_page x (p - 1) = true) ->
  stampable x wanted b = pages_of b.
Proof.
  unfold stampable. induction (pages_of b) as [| p l IH]; intros H; [reflexivity |].
  cbn [List.filter]. destruct (H p) as [Hw Hl]; [by left |].
  rewrite bool_decide_eq_true_2, Hl by done. cbn [andb]. f_equal.
  apply IH. intros q Hq. apply H. by right.
Qed.

End Steps.

(** ** The routine on its two ways out of the batch loop *)

Lemma stamp_run_ok x spec text inPath outPath wanted src w :
  reaches_loop x spec inPath outPath wanted src w ->
  (forall k, (save_with_version x k).2 = true) ->
  (InplaceIncrementalStamp x spec text inPath outPath w).1 = Ret true
  /\ calls (InplaceIncrementalStamp x spec text inPath outPath w).2
     = calls w ++ prologue
         ++ (batches (get_page_count x) ≫= batch_events x wanted (u16 text) true)
         ++ epilogue
  /\ cerr (InplaceIncrementalStamp x spec text inPath outPath w).2 = cerr w
  /\ cout (InplaceIncrementalStamp x spec text inPath outPath w).2 = cout w.
Proof.
  intros Hreach Hok. rewrite (stamp_run _ _ _ _ _ _ _ _ Hreach).
  destruct (run_batches_ok x wanted (u16 text) (batches (get_page_count x))
              (at_loop outPath src w) Hok) as (H1 & H2 & H3 & H4).
  destruct (run_batches _ _ _ _ _) as [r w']. cbn [fst snd] in *. subst r.
  cbn [fst snd calls cerr cout set_files add_calls]. rewrite H2, H3, H4.
  cbn [calls cerr cout at_loop set_files add_calls].
  split; [reflexivity |]. split; [| done]. by rewrite <- !app_assoc.
Qed.

Lemma stamp_run_fail x spec text inPath outPath wanted src w k :
  reaches_loop x spec inPath outPath wanted src w ->
  (k < num_batches (get_page_count x))%nat ->
  (forall j, (j < k)%nat -> (save_with_version x (save_calls w + j)).2 = true) ->
  (save_with_version x (save_calls w + k)).2 = false ->
  (InplaceIncrementalStamp x spec text inPath outPath w).1 = Ret false
  /\ (exists b, batches (get_page_count x) !! k = Some b
      /\ calls (InplaceIncrementalStamp x spec text inPath outPath w).2
         = calls w ++ prologue
             ++ (take k (batches (get_page_count x))
                   ≫= batch_events x wanted (u16 text) true)
             ++ batch_events x wanted (u16 text) false b)
  /\ cerr (InplaceIncrementalStamp x spec text inPath outPath w).2
     = cerr w ++ ["save err"].
Proof.
  intros Hreach Hk Hbefore Hfail. rewrite (stamp_run _ _ _ _ _ _ _ _ Hreach).
  assert (save_calls (at_loop outPath src w) = save_calls w) as Hsc.
  { unfold at_loop, save_calls. cbn. rewrite List.filter_app. cbn.
    by rewrite app_nil_r. }
  destruct (run_batches_fail x wanted (u16 text) (batches (get_page_count x)) k
              (at_loop outPath src w)) as (H1 & (b & Hb & H2) & H3).
  { by rewrite length_batches. }
  { by rewrite Hsc. }
  { by rewrite Hsc. }
  destruct (run_batches _ _ _ _ _) as [r w']. cbn [fst snd] in *. subst r.
  cbn [fst snd calls cerr set_files]. rewrite H2, H3.
  cbn [calls cerr at_loop set_files add_calls].
  split; [reflexivity |]. split; [| done].
  exists b. split; [done |]. by rewrite <- !app_assoc.
Qed.

Lemma main_of_stamp x inPath spec outPath text w :
  is_Some (files w !! inPath) ->
  let r := InplaceIncrementalStamp x spec text inPath outPath w in
  let m := main x (argv inPath spec outPath text) w in
  (r.1 = Ret true -> m.1 = Ret 0 /\ calls m.2 = calls r.2 /\ cerr m.2 = cerr r.2)
  /\ (r.1 = Ret false -> m.1 = Ret 1 /\ calls m.2 = calls r.2 /\ cerr m.2 = cerr r.2).
Proof.
  intros Hin. cbv zeta. rewrite (main_run _ _ _ _ _ _ Hin).
  destruct (InplaceIncrementalStamp x spec text inPath outPath w) as [[[] | | |] w'];
    cbn; split; intros [=]; auto.
Qed.

Lemma steps_prologue : steps prologue = [].
Proof. reflexivity. Qed.

Lemma steps_epilogue : steps epilogue = [].
Proof. reflexivity. Qed.

Lemma elem_of_all_pages n p : p ∈ all_pages n <-> 1 <= p <= n.
Proof.
  unfold all_pages. rewrite elem_of_foldl_insert, elem_of_seqZ. split.
  - intros [H | H]; [by apply not_elem_of_empty in H | lia].
  - intros H. right. lia.
Qed.

Lemma parseSpec_all n : n < INT_MAX -> parseSpec "all" n = Ret (all_pages n).
Proof.
  intros Hn. unfold parseSpec, insert_range. cbn [String.eqb Ascii.eqb].
  replace (n =? INT_MAX) with false by (symmetry; apply Z.eqb_neq; lia).
  by rewrite andb_false_r.
Qed.

(** ** The claims about the batch loop *)

(** C4: the batches cut [1, pageCount] into consecutive ranges of at most
    STEP pages, in order, and a run whose saves succeed stamps the
    selected pages of each batch and then saves, batch after batch; on 100
    pages with spec "all" that is pages 1-40, save, 41-80, save, 81-100,
    save. *)
Theorem batches_partition_and_saves x spec text inPath outPath wanted src w :
  reaches_loop x spec inPath outPath wanted src w ->
  (forall k, (save_with_version x k).2 = true) ->
  let n := get_page_count x in
  let r := InplaceIncrementalStamp x spec text inPath outPath w in
  batches n ≫= pages_of = seqZ 1 n
  /\ Forall (fun b => 1 <= b.1 /\ b.1 <= b.2 <= n /\ b.2 - b.1 + 1 <= STEP)
            (batches n)
  /\ r.1 = Ret true
  /\ steps (calls r.2)
     = steps (calls w)
         ++ (batches n ≫= fun b => (Stamped <$> stampable x wanted b) ++ [Saved true])
  /\ (spec = "all" -> n = 100 -> (forall i, load_page x i = true) ->
      steps (calls r.2)
      = steps (calls w)
          ++ (Stamped <$> seqZ 1 40) ++ [Saved true]
          ++ (Stamped <$> seqZ 41 40) ++ [Saved true]
          ++ (Stamped <$> seqZ 81 20) ++ [Saved true]).
Proof.
  intros Hreach Hok n r.
  destruct (stamp_run_ok x spec text inPath outPath wanted src w Hreach Hok)
    as (Hr & Hcalls & _).
  assert (steps (calls r.2)
          = steps (calls w)
              ++ (batches n ≫= fun b => (Stamped <$> stampable x wanted b) ++ [Saved true]))
    as Hsteps.
  { subst r n. rewrite Hcalls, !steps_app, steps_prologue, steps_epilogue.
    by rewrite steps_batch_events, app_nil_r. }
  split; [apply batches_partition |]. split; [apply batches_sizes |].
  split; [exact Hr |]. split; [exact Hsteps |].
  intros -> Hn Hload. rewrite Hsteps. f_equal.
  destruct Hreach as (_ & Hparse & _). fold n in Hparse. rewrite Hn in *.
  rewrite parseSpec_all in Hparse by (unfold INT_MAX; lia).
  injection Hparse as <-.
  change (batches 100) with [(1, 40); (41, 80); (81, 100)].
  rewrite !bind_cons. change (([] : list (Z * Z)) ≫= _) with (@nil Step).
  rewrite app_nil_r, <- !app_assoc.
  rewrite !stampable_all; [reflexivity | | |];
    intros p Hp; apply elem_of_seqZ in Hp; cbn [fst snd] in Hp;
    (split; [apply elem_of_all_pages; lia | apply Hload]).
Qed.

Lemma batches_partition_and_saves_witness :
  let x := sample_doc 100 (fun _ => false) (fun _ => false) in
  let r := InplaceIncrementalStamp x "all" "t" "in.pdf" "out.pdf" disk in
  reaches_loop x "all" "in.pdf" "out.pdf" (all_pages 100) [x41; x42; x43; x44] disk
  /\ (forall k, (save_with_version x k).2 = true)
  /\ r.1 = Ret true
  /\ steps (calls r.2)
     = (Stamped <$> seqZ 1 40) ++ [Saved true]
         ++ (Stamped <$> seqZ 41 40) ++ [Saved true]
         ++ (Stamped <$> seqZ 81 20) ++ [Saved true].
Proof.
  assert (reaches_loop (sample_doc 100 (fun _ => false) (fun _ => false))
            "all" "in.pdf" "out.pdf" (all_pages 100) [x41; x42; x43; x44] disk)
    as Hreach by (repeat split; by_eval).
  pose proof (batches_partition_and_saves
                (sample_doc 100 (fun _ => false) (fun _ => false))
                "all" "t" "in.pdf" "out.pdf" (all_pages 100) [x41; x42; x43; x44] disk
                Hreach (fun _ => eq_refl)) as (_ & _ & Hr & _ & Hsteps).
  exact (conj Hreach (conj (fun _ => eq_refl)
           (conj Hr (Hsteps eq_refl eq_refl (fun _ => eq_refl))))).
Defined.

Lemma save_calls_app_calls w es :
  length (List.filter is_save (calls w ++ es))
  = (save_calls w + length (List.filter is_save es))%nat.
Proof. unfold save_calls. by rewrite List.filter_app, length_app. Qed.

(** C6: when the save of a batch reports failure (and the saves before it
    succeeded), the routine returns [false] at once and the exit status
    is 1: that save is the last library call of the run, it was issued
    once, and no later batch is stamped or saved. *)
Theorem failed_save_is_fatal x spec text inPath outPath wanted src w (k : nat) :
  reaches_loop x spec inPath outPath wanted src w ->
  is_Some (files w !! inPath) ->
  (k < num_batches (get_page_count x))%nat ->
  (forall j, (j < k)%nat -> (save_with_version x (save_calls w + j)).2 = true) ->
  (save_with_version x (save_calls w + k)).2 = false ->
  let r := main x (argv inPath spec outPath text) w in
  (InplaceIncrementalStamp x spec text inPath outPath w).1 = Ret false
  /\ r.1 = Ret 1
  /\ cerr r.2 = cerr w ++ ["save err"]
  /\ save_calls r.2 = (save_calls w + k + 1)%nat
  /\ last (calls r.2) = Some (FPDF_SaveWithVersion FPDF_INCREMENTAL 17 false)
  /\ (exists b, batches (get_page_count x) !! k = Some b
      /\ steps (calls r.2)
         = steps (calls w)
             ++ (take k (batches (get_page_count x))
                   ≫= fun b' => (Stamped <$> stampable x wanted b') ++ [Saved true])
             ++ (Stamped <$> stampable x wanted b) ++ [Saved false]).
Proof.
  intros Hreach Hin Hk Hbefore Hfail r.
  destruct (stamp_run_fail x spec text inPath outPath wanted src w k
              Hreach Hk Hbefore Hfail) as (Hr & (b & Hb & Hcalls) & Herr).
  destruct (main_of_stamp x inPath spec outPath text w Hin) as [_ Hmain].
  destruct (Hmain Hr) as (Hexit & Hmc & Hme). fold r in Hexit, Hmc, Hme.
  split; [exact Hr |]. split; [exact Hexit |].
  split; [by rewrite Hme |].
  assert (length (take k (batches (get_page_count x))) = k) as Hlen
    by (rewrite length_take, length_batches; lia).
  split; [| split].
  - unfold save_calls at 1. rewrite Hmc, Hcalls.
    rewrite save_calls_app_calls, !List.filter_app, !length_app.
    rewrite saves_batch_events, Hlen. unfold batch_events.
    rewrite List.filter_app, filter_save_batch_page_events. cbn. lia.
  - rewrite Hmc, Hcalls. unfold batch_events at 2.
    rewrite !app_assoc. apply last_snoc.
  - exists b. split; [exact Hb |]. rewrite Hmc, Hcalls.
    rewrite !steps_app, steps_prologue, steps_batch_events. unfold batch_events.
    by rewrite steps_app, steps_batch_page_events.
Qed.

Lemma failed_save_is_fatal_witness :
  let x := sample_doc 100 (fun _ => false) (fun k => Nat.eqb k 1) in
  let r := main x (argv "in.pdf" "all" "out.pdf" "t") disk in
  reaches_loop x "all" "in.pdf" "out.pdf" (all_pages 100) [x41; x42; x43; x44] disk
  /\ is_Some (files disk !! "in.pdf")
  /\ (1 < num_batches (get_page_count x))%nat
  /\ (forall j, (j < 1)%nat -> (save_with_version x (save_calls disk + j)).2 = true)
  /\ (save_with_version x (save_calls disk + 1)).2 = false
  /\ r.1 = Ret 1
  /\ save_calls r.2 = 2%nat
  /\ last (calls r.2) = Some (FPDF_SaveWithVersion FPDF_INCREMENTAL 17 false).
Proof.
  assert (reaches_loop (sample_doc 100 (fun _ => false) (fun k => Nat.eqb k 1))
            "all" "in.pdf" "out.pdf" (all_pages 100) [x41; x42; x43; x44] disk)
    as Hreach by (repeat split; by_eval).
  assert (is_Some (files disk !! "in.pdf")) as Hin by by_eval.
  assert (1 < num_batches 100)%nat as Hk by by_eval.
  assert (forall j, (j < 1)%nat ->
            (save_with_version (sample_doc 100 (fun _ => false) (fun k => Nat.eqb k 1))
               (save_calls disk + j)).2 = true) as Hbefore
    by (intros [| j] Hj; [reflexivity | lia]).
  pose proof (failed_save_is_fatal
                (sample_doc 100 (fun _ => false) (fun k => Nat.eqb k 1))
                "all" "t" "in.pdf" "out.pdf" (all_pages 100) [x41; x42; x43; x44] disk
                1%nat Hreach Hin Hk Hbefore eq_refl) as (_ & Hexit & _ & Hsaves & Hlast & _).
  exact (conj Hreach (conj Hin (conj Hk (conj Hbefore (conj eq_refl
           (conj Hexit (conj Hsaves Hlast))))))).
Defined.

(** C7: a selected page that fails to load is skipped and nothing else
    changes: the run succeeds with exit status 0, the page is not stamped,
    every selected page that loads is stamped, and every batch is saved. *)
Theorem unit_load_failure_is_skipped x spec text inPath outPath wanted src w (i : Z) :
  reaches_loop x spec inPath outPath wanted src w ->
  is_Some (files w !! inPath) ->
  (forall k, (save_with_version x k).2 = true) ->
  i ∈ wanted -> load_page x (i - 1) = false ->
  let r := main x (argv inPath spec outPath text) w in
  r.1 = Ret 0
  /\ (exists es,
       calls r.2 = calls w ++ es
       /\ FPDF_LoadPage (i - 1) false ∈ es
       /\ (Stamped i ∉ steps es)
       /\ (forall j, j ∈ wanted -> load_page x (j - 1) = true -> Stamped j ∈ steps es)
       /\ length (List.filter is_save es) = num_batches (get_page_count x)
       /\ Forall (fun s => s <> Saved false) (steps es)).
Proof.
  intros Hreach Hin Hok Hi Hload r.
  destruct (stamp_run_ok x spec text inPath outPath wanted src w Hreach Hok)
    as (Hr & Hcalls & _).
  destruct (main_of_stamp x inPath spec outPath text w Hin) as [Hmain _].
  destruct (Hmain Hr) as (Hexit & Hmc & _). fold r in Hexit, Hmc.
  split; [exact Hexit |].
  set (n := get_page_count x) in *.
  exists (prologue ++ (batches n ≫= batch_events x wanted (u16 text) true) ++ epilogue).
  assert (forall p, p ∈ wanted -> 1 <= p <= n) as Hbounds
    by (destruct Hreach as (_ & Hparse & _); apply (parseSpec_bounds _ _ _ Hparse)).
  assert (forall p, Stamped p ∈ steps (prologue
            ++ (batches n ≫= batch_events x wanted (u16 text) true) ++ epilogue)
          <-> 1 <= p <= n /\ p ∈ wanted /\ load_page x (p - 1) = true) as Hst.
  { intros p. rewrite !steps_app, steps_prologue, steps_epilogue, app_nil_r.
    apply stamped_in_batches. }
  split; [by rewrite Hmc, Hcalls |]. split; [| split; [| split; [| split]]].
  - apply elem_of_app. right. apply elem_of_app. left.
    assert (i ∈ batches n ≫= pages_of) as Hp
      by (rewrite batches_partition, elem_of_seqZ; specialize (Hbounds i Hi); lia).
    apply list_elem_of_bind in Hp as (b & Hp & Hb).
    apply list_elem_of_bind. exists b. split; [| exact Hb].
    unfold batch_events, batch_page_events. apply elem_of_app. left.
    apply list_elem_of_bind. exists i. split; [| exact Hp].
    unfold page_events. destruct (decide (i ∈ wanted)); [| done].
    rewrite Hload. by left.
  - rewrite Hst. intros (_ & _ & Hl). congruence.
  - intros j Hj Hlj. apply Hst. auto.
  - rewrite !List.filter_app, !length_app, saves_batch_events, length_batches.
    cbn. lia.
  - rewrite !steps_app, steps_prologue, steps_epilogue, app_nil_r, steps_batch_events.
    apply Forall_forall. intros s Hs.
    apply list_elem_of_bind in Hs as (b & Hs & _).
    apply elem_of_app in Hs as [Hs | Hs].
    + apply list_elem_of_fmap in Hs as (q & -> & _). discriminate.
    + apply list_elem_of_singleton in Hs as ->. discriminate.
Qed.

Lemma unit_load_failure_is_skipped_witness :
  let x := sample_doc 3 (fun i => i =? 1) (fun _ => false) in
  let r := main x (argv "in.pdf" "all" "out.pdf" "t") disk in
  reaches_loop x "all" "in.pdf" "out.pdf" (all_pages 3) [x41; x42; x43; x44] disk
  /\ is_Some (files disk !! "in.pdf")
  /\ (forall k, (save_with_version x k).2 = true)
  /\ 2 ∈ all_pages 3 /\ load_page x (2 - 1) = false
  /\ r.1 = Ret 0
  /\ (exists es,
       calls r.2 = calls disk ++ es
       /\ FPDF_LoadPage (2 - 1) false ∈ es
       /\ (Stamped 2 ∉ steps es)
       /\ (forall j, j ∈ all_pages 3 -> load_page x (j - 1) = true -> Stamped j ∈ steps es)
       /\ length (List.filter is_save es) = num_batches (get_page_count x)
       /\ Forall (fun s => s <> Saved false) (steps es)).
Proof.
  assert (reaches_loop (sample_doc 3 (fun i => i =? 1) (fun _ => false))
            "all" "in.pdf" "out.pdf" (all_pages 3) [x41; x42; x43; x44] disk)
    as Hreach by (repeat split; by_eval).
  assert (is_Some (files disk !! "in.pdf")) as Hin by by_eval.
  assert (2 ∈ all_pages 3) as H2 by by_eval.
  exact (conj Hreach (conj Hin (conj (fun _ => eq_refl) (conj H2 (conj eq_refl
    (unit_load_failure_is_skipped
       (sample_doc 3 (fun i => i =? 1) (fun _ => false))
       "all" "t" "in.pdf" "out.pdf" (all_pages 3) [x41; x42; x43; x44] disk 2
       Hreach Hin (fun _ => eq_refl) H2 eq_refl)))))).
Defined.

(** C9: with a non-empty selection and saves that succeed, the number of
    saves is the number of batches of the whole page range,
    ceil(pageCount / 40), whatever the selection is. *)
Theorem one_save_per_batch x spec text inPath outPath wanted src w :
  reaches_loop x spec inPath outPath wanted src w ->
  (forall k, (save_with_version x k).2 = true) ->
  let n := get_page_count x in
  let r := InplaceIncrementalStamp x spec text inPath outPath w in
  let saves := (Z.of_nat (save_calls r.2) - Z.of_nat (save_calls w)) in
  r.1 = Ret true
  /\ 1 <= n
  /\ saves = (n + STEP - 1) / STEP
  /\ STEP * (saves - 1) < n <= STEP * saves.
Proof.
  intros Hreach Hok n r saves.
  destruct (stamp_run_ok x spec text inPath outPath wanted src w Hreach Hok)
    as (Hr & Hcalls & _).
  assert (1 <= n) as Hn.
  { destruct Hreach as (_ & Hparse & Hne & _).
    destruct (set_choose_L wanted Hne) as [p Hp].
    pose proof (parseSpec_bounds _ _ _ Hparse p Hp). subst n. lia. }
  assert (save_calls r.2 = (save_calls w + num_batches n)%nat) as Hcount.
  { subst r. unfold save_calls at 1. rewrite Hcalls.
    rewrite save_calls_app_calls, !List.filter_app, !length_app.
    rewrite saves_batch_events, length_batches.
    change (length (List.filter is_save prologue)) with O.
    change (length (List.filter is_save epilogue)) with O.
    fold n. lia. }
  assert (saves = Z.of_nat (num_batches n)) as Hs by (subst saves; lia).
  split; [exact Hr |]. split; [exact Hn |].
  rewrite Hs. unfold num_batches, STEP.
  pose proof (Z.div_mod (n + 40 - 1) 40 ltac:(lia)) as Hdm.
  pose proof (Z.mod_pos_bound (n + 40 - 1) 40 ltac:(lia)) as Hm.
  split; lia.
Qed.

Lemma one_save_per_batch_witness :
  let x := sample_doc 100 (fun _ => false) (fun _ => false) in
  let r := InplaceIncrementalStamp x "1" "t" "in.pdf" "out.pdf" disk in
  reaches_loop x "1" "in.pdf" "out.pdf" {[ 1 ]} [x41; x42; x43; x44] disk
  /\ (forall k, (save_with_version x k).2 = true)
  /\ r.1 = Ret true
  /\ Z.of_nat (save_calls r.2) - Z.of_nat (save_calls disk) = 3.
Proof.
  assert (reaches_loop (sample_doc 100 (fun _ => false) (fun _ => false))
            "1" "in.pdf" "out.pdf" {[ 1 ]} [x41; x42; x43; x44] disk)
    as Hreach by (repeat split; by_eval).
  pose proof (one_save_per_batch
                (sample_doc 100 (fun _ => false) (fun _ => false))
                "1" "t" "in.pdf" "out.pdf" {[ 1 ]} [x41; x42; x43; x44] disk
                Hreach (fun _ => eq_refl)) as (Hr & _ & Hsaves & _).
  exact (conj Hreach (conj (fun _ => eq_refl) (conj Hr Hsaves))).
Defined.

(** * Further properties of the code *)

(** ** pageSpec parser: sets, lists and malformed tokens *)

Lemma foldl_insert_acc (l : list Z) (idx : gset Z) :
  foldl (fun s q => {[ q ]} ∪ s) idx l = foldl (fun s q => {[ q ]} ∪ s) ∅ l ∪ idx.
Proof.
  apply set_eq. intros p.
  rewrite elem_of_union, !elem_of_foldl_insert, elem_of_empty. tauto.
Qed.

Lemma insert_range_acc a b idx :
  insert_range a b idx = outcome_map (fun s => s ∪ idx) (insert_range a b ∅).
Proof.
  unfold insert_range. destruct (_ && _); [reflexivity |].
  cbn. by rewrite foldl_insert_acc.
Qed.

Lemma parse_token_acc tok N idx :
  parse_token tok N idx = outcome_map (fun s => s ∪ idx) (parse_token tok N ∅).
Proof.
  unfold parse_token. destruct (find dash tok) as [d |].
  - destruct (stoi (substr_to tok d)) as [a | | |]; try reflexivity.
    destruct (stoi (substr_from tok (S d))) as [b | | |]; try reflexivity.
    cbn [obind]. destruct (b <? a); apply insert_range_acc.
  - destruct (stoi tok) as [v | | |]; try reflexivity. cbn.
    destruct (_ && _); f_equal.
    + by rewrite (right_id_L ∅ (∪)).
    + by rewrite (left_id_L ∅ (∪)).
Qed.

Lemma parse_list_acc toks N idx :
  parse_list toks N idx = outcome_map (fun s => s ∪ idx) (parse_list toks N ∅).
Proof.
  revert idx. induction toks as [| t toks IH]; intros idx.
  - cbn. by rewrite (left_id_L ∅ (∪)).
  - cbn [parse_list]. rewrite (parse_token_acc t N idx).
    destruct (parse_token t N ∅) as [a | | |]; try reflexivity.
    cbn [outcome_map obind]. rewrite (IH (a ∪ idx)), (IH a).
    destruct (parse_list toks N ∅) as [s | | |]; try reflexivity.
    cbn. by rewrite (assoc_L (∪)).
Qed.

Lemma tokens_of_trailing_comma s :
  s <> EmptyString -> ends_with_comma s = false ->
  tokens_of (s +:+ String comma "") = tokens_of s.
Proof.
  induction s as [| c s IH]; [done |]. intros _ Hend.
  rewrite sapp_cons. cbn [tokens_of].
  destruct s as [| c' s'].
  - cbn in Hend. rewrite sapp_nil_l. cbn [tokens_of]. by rewrite Hend.
  - rewrite IH by done. reflexivity.
Qed.

Lemma parseSpec_tokens spec N :
  String.eqb spec "all" = false ->
  parseSpec spec N = parse_list (tokens_of spec) N ∅.
Proof. intros H. unfold parseSpec. rewrite H. apply parse_tokens_list. lia. Qed.

Lemma parseSpec_sep s1 s2 N :
  parseSpec (s1 +:+ String comma s2) N
  = parse_list (tokens_of (s1 +:+ String comma "") ++ tokens_of s2) N ∅.
Proof.
  rewrite parseSpec_tokens by (apply eqb_all_false; left; apply find_sep_some).
  by rewrite tokens_of_sep.
Qed.

Lemma eqb_all_neq s : s <> "all" -> String.eqb s "all" = false.
Proof. intros H. by destruct (String.eqb_spec s "all"). Qed.

Lemma comma_union s1 s2 N (A B : gset Z) :
  s1 <> EmptyString -> ends_with_comma s1 = false ->
  s1 <> "all" -> s2 <> "all" ->
  parseSpec s1 N = Ret A -> parseSpec s2 N = Ret B ->
  parseSpec (s1 +:+ String comma s2) N = Ret (A ∪ B).
Proof.
  intros Hne Hend H1 H2 HA HB.
  rewrite parseSpec_tokens in HA, HB by (by apply eqb_all_neq).
  rewrite parseSpec_sep, tokens_of_trailing_comma, parse_list_app by done.
  rewrite HA. cbn [obind]. rewrite parse_list_acc, HB. cbn.
  by rewrite (comm_L (∪)).
Qed.

(** X1: the selection never leaves the document: whatever the spec, every
    index of a parsed set lies in [1, maxPage]. *)
Theorem selection_within_document spec N (s : gset Z) :
  parseSpec spec N = Ret s -> forall p, p ∈ s -> 1 <= p <= N.
Proof. apply parseSpec_bounds. Qed.

Lemma selection_within_document_witness :
  parseSpec "0-3,9,12" 10 = Ret ({[ 1; 2; 3; 9 ]} : gset Z)
  /\ forall p, p ∈ ({[ 1; 2; 3; 9 ]} : gset Z) -> 1 <= p <= 10.
Proof.
  assert (parseSpec "0-3,9,12" 10 = Ret ({[ 1; 2; 3; 9 ]} : gset Z)) as H by by_eval.
  exact (conj H (selection_within_document "0-3,9,12" 10 _ H)).
Defined.

(** X2: the spec "all" selects every page of the document and nothing else;
    on a document without pages that is the empty set. *)
Theorem all_selects_every_page N :
  N < INT_MAX ->
  exists s, parseSpec "all" N = Ret s /\ forall p, p ∈ s <-> 1 <= p <= N.
Proof.
  intros HN. exists (all_pages N). split; [by apply parseSpec_all |].
  apply elem_of_all_pages.
Qed.

Lemma all_selects_every_page_witness :
  7 < INT_MAX
  /\ exists s, parseSpec "all" 7 = Ret s /\ forall p, p ∈ s <-> 1 <= p <= 7.
Proof.
  assert (7 < INT_MAX) as H by by_eval.
  exact (conj H (all_selects_every_page 7 H)).
Defined.

(** X3: a single integer within the document selects exactly that page. *)
Theorem single_in_range_selected v N :
  1 <= v <= N -> v <= INT_MAX -> parseSpec (show_Z v) N = Ret {[ v ]}.
Proof.
  intros Hv Hmax.
  assert (find comma (show_Z v) = None) as Hc by (by apply find_show_Z).
  assert (show_Z v <> EmptyString) as Hne
    by (rewrite show_Z_nonneg by lia; apply show_nat_digits).
  rewrite parseSpec_single_token; [| exact Hc | exact Hne |].
  - unfold parse_token. rewrite show_Z_nonneg by lia.
    rewrite find_digits_only by (apply show_nat_digits || reflexivity).
    rewrite stoi_show_nat by lia. cbn [obind].
    destruct (Z.leb_spec 1 v), (Z.leb_spec v N); try lia. cbn [andb].
    by rewrite (right_id_L ∅ (∪)).
  - destruct (String.eqb_spec (show_Z v) "all") as [Heq | _]; [| reflexivity].
    pose proof (show_nat_digits v) as [Hd _].
    rewrite show_Z_nonneg in Heq by lia. rewrite Heq in Hd. discriminate.
Qed.

Lemma single_in_range_selected_witness :
  1 <= 5 <= 10 /\ 5 <= INT_MAX /\ parseSpec (show_Z 5) 10 = Ret {[ 5 ]}.
Proof.
  assert (1 <= 5 <= 10) as H1 by lia.
  assert (5 <= INT_MAX) as H2 by by_eval.
  exact (conj H1 (conj H2 (single_in_range_selected 5 10 H1 H2))).
Defined.

(** X4: a comma joins selections: when both sides parse, the list "s1,s2"
    selects the union of what [s1] and [s2] select. *)
Theorem comma_joins_selections s1 s2 N (A B : gset Z) :
  s1 <> EmptyString -> ends_with_comma s1 = false ->
  s1 <> "all" -> s2 <> "all" ->
  parseSpec s1 N = Ret A -> parseSpec s2 N = Ret B ->
  parseSpec (s1 +:+ "," +:+ s2) N = Ret (A ∪ B).
Proof. apply comma_union. Qed.

Lemma comma_joins_selections_witness :
  parseSpec ("3,5-7" +:+ "," +:+ "6-8") 10 = Ret ({[ 3; 5; 6; 7 ]} ∪ {[ 6; 7; 8 ]}).
Proof.
  apply (comma_joins_selections "3,5-7" "6-8" 10); by_eval || discriminate.
Defined.



Lemma tokens_of_mid t r :
  find comma t = None -> tokens_of (t +:+ String comma r) = t :: tokens_of r.
Proof.
  intros Hf. destruct t as [| c t]; [reflexivity |]. by apply tokens_of_head.
Qed.

(** X6: a token that [std::stoi] rejects is fatal, not skipped: a list that
    holds such a token between two commas never yields a set.  The empty
    token of "1,,2" and the word "all" inside a list are of this kind. *)
Theorem malformed_token_aborts tok e s1 s2 N :
  find comma tok = None -> find dash tok = None -> stoi tok = Throw e ->
  forall s, parseSpec (s1 +:+ "," +:+ tok +:+ "," +:+ s2) N <> Ret s.
Proof.
  intros Hc Hd He s.
  change (s1 +:+ "," +:+ tok +:+ "," +:+ s2)
    with (s1 +:+ String comma (tok +:+ String comma s2)).
  rewrite parseSpec_sep, (tokens_of_mid _ _ Hc), parse_list_app.
  destruct (parse_list (tokens_of (s1 +:+ String comma "")) N ∅) as [idx | | |];
    cbn [obind]; try discriminate.
  cbn [parse_list]. unfold parse_token. rewrite Hd, He. discriminate.
Qed.

Lemma malformed_token_aborts_witness :
  (forall s, parseSpec ("1" +:+ "," +:+ "" +:+ "," +:+ "2") 10 <> Ret s)
  /\ (forall s, parseSpec ("1" +:+ "," +:+ "all" +:+ "," +:+ "2") 10 <> Ret s).
Proof.
  split.
  - apply (malformed_token_aborts "" invalid_argument "1" "2" 10); by_eval.
  - apply (malformed_token_aborts "all" invalid_argument "1" "2" 10); by_eval.
Defined.

(** X7: a comma at the end of a list is ignored: [std::getline] hands out no
    token after it. *)
Theorem trailing_comma_ignored s N :
  s <> EmptyString -> ends_with_comma s = false -> s <> "all" ->
  parseSpec (s +:+ ",") N = parseSpec s N.
Proof.
  intros Hne Hend Hall.
  change (s +:+ ",") with (s +:+ String comma "").
  rewrite parseSpec_sep, tokens_of_trailing_comma, app_nil_r by done.
  symmetry. apply parseSpec_tokens. by apply eqb_all_neq.
Qed.

Lemma trailing_comma_ignored_witness :
  parseSpec ("2,4" +:+ ",") 10 = parseSpec "2,4" 10.
Proof. apply (trailing_comma_ignored "2,4" 10); by_eval || discriminate. Defined.

Lemma show_digits_acc f n acc :
  show_digits f n acc = show_digits f n "" +:+ acc.
Proof.
  revert n acc. induction f as [| f IH]; intros n acc; [reflexivity |].
  cbn [show_digits]. destruct (n <? 10); [reflexivity |].
  rewrite (IH _ (String _ acc)), (IH _ (String _ "")), sapp_assoc. reflexivity.
Qed.

Lemma stoi_show_nat_junk v c junk :
  0 <= v <= INT_MAX -> digit_of c = None ->
  stoi (show_nat v +:+ String c junk) = Ret v.
Proof.
  intros Hv Hc. destruct (show_nat_digits v) as [Hd Hne]. unfold stoi.
  assert (read_digits (show_nat v +:+ String c junk) 0 false = Some v) as Hr.
  { unfold show_nat. rewrite <- show_digits_acc, read_digits_show_digits.
    - cbn [read_digits]. by rewrite Hc.
    - split; [lia |]. destruct (Z.eq_dec v 0) as [-> | Hnz]; [cbn; lia |].
      rewrite Nat2Z.inj_succ, Z2Nat.id by apply Z.log2_nonneg.
      apply Z.log2_spec. lia. }
  destruct (show_nat v) as [| d ds]; [done |].
  rewrite sapp_cons in *. cbn in Hd. apply andb_prop in Hd as [Hdd _].
  apply bool_decide_eq_true in Hdd.
  destruct (digit_not_special d Hdd) as (Hsp & Hda & Hpl & _).
  cbn [skip_space]. rewrite Hsp, Hda, Hpl, Hr.
  unfold in_int. replace (INT_MIN <=? v) with true
    by (symmetry; apply Z.leb_le; unfold INT_MIN; lia).
  by replace (v <=? INT_MAX) with true by (symmetry; apply Z.leb_le; lia).
Qed.

(** X8: text after a number is discarded: [std::stoi] stops at the first
    character that is not a digit, so the token "3abc" selects what "3"
    selects. *)
Theorem text_after_number_ignored v c junk N :
  0 <= v <= INT_MAX -> digit_of c = None ->
  find comma (String c junk) = None -> find dash (String c junk) = None ->
  parseSpec (show_Z v +:+ String c junk) N = parseSpec (show_Z v) N.
Proof.
  intros Hv Hc Hcomma Hdash.
  destruct (show_nat_digits v) as [Hd Hne].
  assert (forall s, show_nat v +:+ s <> "all") as Hall.
  { intros s Heq. destruct (show_nat v) as [| d ds]; [done |].
    rewrite sapp_cons in Heq. injection Heq as -> _. discriminate. }
  rewrite show_Z_nonneg by lia.
  assert (find comma (show_nat v) = None) as Hcv by (by apply find_digits_only).
  assert (find dash (show_nat v) = None) as Hdv by (by apply find_digits_only).
  rewrite !parseSpec_single_token.
  - unfold parse_token. rewrite find_app, Hdash, Hdv by done. cbn [fmap option_fmap option_map].
    by rewrite stoi_show_nat_junk, stoi_show_nat.
  - done.
  - done.
  - apply eqb_all_neq. specialize (Hall ""). by rewrite sapp_nil_r in Hall.
  - by rewrite find_app, Hcomma.
  - intros Heq. destruct (show_nat v); discriminate.
  - apply eqb_all_neq, Hall.
Qed.

Lemma text_after_number_ignored_witness :
  parseSpec (show_Z 3 +:+ "abc") 10 = parseSpec (show_Z 3) 10.
Proof.
  apply (text_after_number_ignored 3 "a"%char "bc" 10); by_eval.
Defined.

(** ** Streaming input: FileReader *)

Lemma length_slice bytes off sz :
  in_range bytes (off, sz) -> Z.of_nat (length (slice bytes off sz)) = sz.
Proof.
  intros (Ho & Hs & Hle). cbn [fst snd] in *. unfold slice.
  rewrite length_take, length_drop. lia.
Qed.

Lemma FileReader_Read_in_range r off sz :
  f_fail r = false -> Z.of_nat (length (f_bytes r)) <= LONG_MAX ->
  in_range (f_bytes r) (off, sz) ->
  Read r off sz = (true, slice (f_bytes r) off sz, r).
Proof.
  intros Hg Hlen Hin. pose proof (length_slice _ _ _ Hin) as Hsl.
  destruct Hin as (Ho & Hs & Hle). cbn [fst snd] in *.
  cbn [Read FileReader_IReader]. unfold FileReader_Read. rewrite Hg.
  replace (LONG_MAX <? off) with false by (symmetry; apply Z.ltb_ge; lia).
  replace (LONG_MAX <? sz) with false by (symmetry; apply Z.ltb_ge; lia).
  fold (slice (f_bytes r) off sz). cbv zeta. rewrite Hsl, Z.eqb_refl. reflexivity.
Qed.

Lemma FileReader_Read_false_fails r off sz :
  (Read r off sz).1.1 = false -> f_fail (Read r off sz).2 = true.
Proof.
  cbn [Read FileReader_IReader]. unfold FileReader_Read.
  destruct (f_fail r) eqn:Hf; [done |].
  destruct (LONG_MAX <? off); [done |].
  destruct (LONG_MAX <? sz); [done |].
  cbv zeta. by destruct (_ =? sz).
Qed.

(** X9: requests that lie within the file are served in any order: each
    returns 1 with exactly the requested bytes, and the reader is as good
    afterwards as before. *)
Theorem reads_in_any_order (r : FileReader) (reqs : list (Z * Z)) :
  f_fail r = false -> Z.of_nat (length (f_bytes r)) <= LONG_MAX ->
  Forall (in_range (f_bytes r)) reqs ->
  read_all r reqs
  = ((fun req => (1, slice (f_bytes r) req.1 req.2)) <$> reqs, r).
Proof.
  intros Hg Hlen Hall. induction Hall as [| [off sz] reqs Hin _ IH]; [reflexivity |].
  cbn [read_all]. unfold GetBlock.
  rewrite (FileReader_Read_in_range r off sz Hg Hlen Hin), IH. reflexivity.
Qed.

Lemma reads_in_any_order_witness :
  let r := {| f_bytes := [x41; x42; x43; x44]; f_fail := false; n := 4 |} in
  read_all r [(2, 2); (0, 1); (1, 3); (4, 0)]
  = ([(1, [x43; x44]); (1, [x41]); (1, [x42; x43; x44]); (1, [])], r).
Proof.
  apply (reads_in_any_order
           {| f_bytes := [x41; x42; x43; x44]; f_fail := false; n := 4 |}
           [(2, 2); (0, 1); (1, 3); (4, 0)]); [by_eval | by_eval |].
  repeat constructor; cbn; lia.
Defined.

(** X10: on a good reader a request for at least one byte is a short read
    exactly when its range exceeds the file. *)
Theorem short_read_iff_beyond_end (r : FileReader) off sz :
  f_fail r = false -> Z.of_nat (length (f_bytes r)) <= LONG_MAX ->
  0 <= off -> 0 < sz ->
  (Read r off sz).1.1 = false <-> Z.of_nat (length (f_bytes r)) < off + sz.
Proof.
  intros Hg Hlen Ho Hs. cbn [Read FileReader_IReader]. unfold FileReader_Read.
  rewrite Hg. destruct (Z.ltb_spec LONG_MAX off) as [Hbig | Hoff].
  - cbn [fst]. split; [lia |]. intros _. apply Z.eqb_neq. lia.
  - destruct (Z.ltb_spec LONG_MAX sz) as [Hbig | Hsz].
    + cbn [fst]. split; [intros _; lia | reflexivity].
    + cbv zeta. cbn [fst]. rewrite Z.eqb_neq, length_take, length_drop. lia.
Qed.

Lemma short_read_iff_beyond_end_witness :
  let r := {| f_bytes := [x41; x42; x43; x44]; f_fail := false; n := 4 |} in
  (Read r 3 2).1.1 = false <-> Z.of_nat (length (f_bytes r)) < 3 + 2.
Proof.
  apply (short_read_iff_beyond_end
           {| f_bytes := [x41; x42; x43; x44]; f_fail := false; n := 4 |} 3 2);
    by_eval.
Defined.

(** X11: a short read is final.  The fail bit it sets is never cleared,
    so every later request for at least one byte returns 0 and stores
    nothing, also when its range lies within the file. *)
Theorem short_read_poisons_reader (r : FileReader) off sz off' sz' :
  (Read r off sz).1.1 = false -> sz' <> 0 ->
  exists r', Read (Read r off sz).2 off' sz' = (false, [], r')
             /\ GetBlock (Read r off sz).2 off' sz' = (0, [], r').
Proof.
  intros Hshort Hsz. apply FileReader_Read_false_fails in Hshort.
  generalize dependent (Read r off sz).2. intros r1 Hfail.
  exists r1. unfold GetBlock. cbn [Read FileReader_IReader].
  unfold FileReader_Read. rewrite Hfail. apply Z.eqb_neq in Hsz. by rewrite Hsz.
Qed.

Lemma short_read_poisons_reader_witness :
  let r := {| f_bytes := [x41; x42; x43; x44]; f_fail := false; n := 4 |} in
  (Read r 3 2).1.1 = false /\ 1 <> 0
  /\ exists r', Read (Read r 3 2).2 0 1 = (false, [], r')
                /\ GetBlock (Read r 3 2).2 0 1 = (0, [], r').
Proof.
  assert (1 <> 0) as H1 by lia.
  exact (conj eq_refl (conj H1
    (short_read_poisons_reader
       {| f_bytes := [x41; x42; x43; x44]; f_fail := false; n := 4 |}
       3 2 0 1 eq_refl H1))).
Defined.

(** X12: opening a file that is missing throws "open <path>"; opening
    one that exists gives a reader whose length is the size of the file
    and from which one request returns the whole file. *)
Theorem open_then_read_whole_file (fs : gmap string (list byte)) p :
  (fs !! p = None ->
   FileReader_open fs p = Throw (runtime_error ("open " +:+ p)))
  /\ (forall bytes, fs !! p = Some bytes ->
       Z.of_nat (length bytes) <= LONG_MAX ->
       exists r, FileReader_open fs p = Ret r
                 /\ Len r = Z.of_nat (length bytes)
                 /\ Read r 0 (Len r) = (true, bytes, r)).
Proof.
  unfold FileReader_open. split; [by intros -> |].
  intros bytes -> Hlen. eexists. split; [reflexivity |]. split; [reflexivity |].
  rewrite FileReader_Read_in_range; cbn; try done.
  - unfold slice. by rewrite Nat2Z.id, drop_0, firstn_all.
  - unfold in_range. cbn. lia.
Qed.

Lemma open_then_read_whole_file_witness :
  FileReader_open (files disk) "none.pdf" = Throw (runtime_error "open none.pdf")
  /\ exists r, FileReader_open (files disk) "in.pdf" = Ret r
               /\ Len r = 4
               /\ Read r 0 (Len r) = (true, [x41; x42; x43; x44], r).
Proof.
  pose proof (open_then_read_whole_file (files disk) "none.pdf") as [Hnone _].
  pose proof (open_then_read_whole_file (files disk) "in.pdf") as [_ Hsome].
  split; [apply Hnone; by_eval |].
  apply (Hsome [x41; x42; x43; x44]); by_eval.
Defined.

(** ** Streaming output: where the bytes land *)

Lemma write_at_within pos data c :
  (pos <= length c)%nat ->
  write_at pos data c = take pos c ++ data ++ drop (pos + length data) c.
Proof.
  intros H. unfold write_at. by replace (pos - length c)%nat with O by lia.
Qed.

Lemma length_write_at pos data c :
  (pos <= length c)%nat ->
  length (write_at pos data c) = (length c `max` (pos + length data))%nat.
Proof.
  intros H. rewrite write_at_within by done.
  rewrite !length_app, length_take, length_drop. lia.
Qed.

Lemma write_at_app pos d1 d2 c :
  (pos <= length c)%nat ->
  write_at (pos + length d1) d2 (write_at pos d1 c) = write_at pos (d1 ++ d2) c.
Proof.
  intros H.
  rewrite (write_at_within (pos + length d1)) by (rewrite length_write_at; lia).
  rewrite !(write_at_within pos) by done.
  assert (length (take pos c ++ d1) = (pos + length d1)%nat) as Hlen
    by (rewrite length_app, length_take; lia).
  rewrite (app_assoc (take pos c) d1).
  rewrite take_app_length' by done.
  rewrite (drop_app_add' _ _ (pos + length d1)) by done.
  rewrite drop_drop, length_app, <- !app_assoc.
  by rewrite Nat.add_assoc.
Qed.

Lemma fwrite_within data path pos c w :
  stream w = Some (path, pos) -> files w !! path = Some c ->
  fwrite data w
  = (Ret tt, set_files (<[path := write_at pos data c]> (files w))
                       (Some (path, (pos + length data)%nat)) w).
Proof.
  intros Hs Hf. unfold fwrite. rewrite Hs. do 2 f_equal.
  apply map_eq. intros k. rewrite lookup_alter, lookup_insert.
  destruct (decide (path = k)) as [<- | _]; [| reflexivity]. by rewrite Hf.
Qed.

Lemma write_blocks_concat blocks path pos c w :
  stream w = Some (path, pos) -> files w !! path = Some c ->
  (pos <= length c)%nat ->
  write_blocks blocks w
  = set_files (<[path := write_at pos (concat blocks) c]> (files w))
              (Some (path, (pos + length (concat blocks))%nat)) w.
Proof.
  unfold write_blocks. revert pos c w.
  induction blocks as [| b blocks IH]; intros pos c w Hs Hf Hpos.
  - cbn [for_each concat length]. cbn [snd mret M_ret].
    apply world_eq; cbn [files stream calls cerr cout set_files]; try done.
    + rewrite write_at_within, app_nil_l, Nat.add_0_r, take_drop by done.
      by rewrite insert_id.
    + by rewrite Hs, Nat.add_0_r.
  - cbn [for_each concat].
    erewrite bind_run by (by apply fwrite_within).
    erewrite IH; [| reflexivity | apply lookup_insert_eq | rewrite length_write_at; lia].
    cbn [files set_files]. rewrite insert_insert_eq, write_at_app by done.
    rewrite length_app. apply world_eq; cbn; try done.
    do 2 f_equal. lia.
Qed.

(** X13: the blocks of one save land one after the other from the stream
    position: writing them is writing their concatenation there, and the
    position moves on by their total length. *)
Theorem blocks_land_contiguously blocks path pos c w :
  stream w = Some (path, pos) -> files w !! path = Some c ->
  (pos <= length c)%nat ->
  files (write_blocks blocks w) !! path
  = Some (take pos c ++ concat blocks ++ drop (pos + length (concat blocks)) c)
  /\ stream (write_blocks blocks w)
     = Some (path, (pos + length (concat blocks))%nat)
  /\ forall p, p <> path -> files (write_blocks blocks w) !! p = files w !! p.
Proof.
  intros Hs Hf Hpos. rewrite (write_blocks_concat _ _ _ _ _ Hs Hf Hpos).
  cbn [files stream set_files]. rewrite lookup_insert_eq, write_at_within by done.
  split; [reflexivity |]. split; [reflexivity |].
  intros p Hp. by rewrite lookup_insert_ne.
Qed.

Lemma blocks_land_contiguously_witness :
  let w0 := set_files (files disk) (Some ("in.pdf", 1%nat)) disk in
  files (write_blocks [[x78]; []; [x79]] w0) !! "in.pdf"
  = Some ([x41] ++ [x78; x79] ++ [x44])
  /\ stream (write_blocks [[x78]; []; [x79]] w0) = Some ("in.pdf", 3%nat).
Proof.
  pose proof (blocks_land_contiguously [[x78]; []; [x79]] "in.pdf" 1%nat
                [x41; x42; x43; x44]
                (set_files (files disk) (Some ("in.pdf", 1%nat)) disk)
                eq_refl ltac:(by_eval) ltac:(by_eval)) as (H1 & H2 & _).
  exact (conj H1 H2).
Defined.

Lemma saved_bytes_S x from k :
  saved_bytes x from (S k)
  = concat (save_with_version x from).1 ++ saved_bytes x (S from) k.
Proof. unfold saved_bytes. cbn [seq fmap list_fmap concat]. by rewrite concat_app. Qed.

Section OutputOfWalk.

Context (x : Extern) (wanted : gset Z) (wtxt : list Z).

Lemma run_batches_files bs path pos c w :
  stream w = Some (path, pos) -> files w !! path = Some c ->
  (pos <= length c)%nat ->
  let w' := (run_batches x wanted wtxt bs w).2 in
  let m := (save_calls w' - save_calls w)%nat in
  (save_calls w <= save_calls w')%nat
  /\ files w' = <[path := write_at pos (saved_bytes x (save_calls w) m) c]> (files w)
  /\ stream w' = Some (path, (pos + length (saved_bytes x (save_calls w) m))%nat).
Proof.
  revert pos c w. induction bs as [| b bs IH]; intros pos c w Hs Hf Hpos.
  - cbn [run_batches snd]. cbv zeta. rewrite Nat.sub_diag. cbn [saved_bytes seq fmap list_fmap concat length].
    rewrite write_at_within, app_nil_l, !Nat.add_0_r, take_drop, insert_id by done.
    auto.
  - cbn [run_batches].
    set (w1 := add_calls (batch_page_events x wanted wtxt b) w).
    assert (save_calls w1 = save_calls w) as Hsc
      by (unfold w1; rewrite save_calls_add_calls, filter_save_batch_page_events;
          cbn; lia).
    rewrite Hsc.
    set (r := save_with_version x (save_calls w)).
    assert (write_blocks r.1 w1
            = set_files (<[path := write_at pos (concat r.1) c]> (files w))
                (Some (path, (pos + length (concat r.1))%nat)) w1) as Hwb
      by (rewrite (write_blocks_concat r.1 path pos c w1 Hs Hf Hpos); reflexivity).
    rewrite Hwb.
    set (w2 := add_calls _ (set_files _ _ w1)).
    assert (save_calls w2 = S (save_calls w)) as Hsc2.
    { unfold w2. rewrite save_calls_add_calls. unfold save_calls at 1.
      cbn [calls set_files]. fold (save_calls w1). rewrite Hsc. cbn. lia. }
    destruct r.2.
    + destruct (IH (pos + length (concat r.1))%nat (write_at pos (concat r.1) c) w2)
        as (Hle & Hfiles & Hstream); [reflexivity | apply lookup_insert_eq | |].
      { rewrite length_write_at; lia. }
      cbv zeta in *. rewrite Hsc2 in *.
      replace (save_calls (run_batches x wanted wtxt bs w2).2 - save_calls w)%nat
        with (S (save_calls (run_batches x wanted wtxt bs w2).2 - S (save_calls w)))
        by lia.
      rewrite saved_bytes_S. fold r.
      split; [lia |]. rewrite Hfiles, Hstream. cbn [files w2 add_calls set_files].
      rewrite insert_insert_eq, write_at_app, length_app by done.
      split; [reflexivity |]. do 2 f_equal. lia.
    + cbn [snd]. cbv zeta.
      assert (save_calls (add_cerr "save err" w2) = S (save_calls w)) as ->
        by (rewrite <- Hsc2; reflexivity).
      replace (S (save_calls w) - save_calls w)%nat with 1%nat by lia.
      rewrite saved_bytes_S. fold r. cbn [saved_bytes seq fmap list_fmap concat].
      rewrite app_nil_r. split; [lia |]. split; reflexivity.
Qed.

End OutputOfWalk.

Lemma save_calls_set_files f s w : save_calls (set_files f s w) = save_calls w.
Proof. reflexivity. Qed.

Lemma save_calls_at_loop outPath src w :
  save_calls (at_loop outPath src w) = save_calls w.
Proof.
  unfold at_loop. rewrite save_calls_set_files, save_calls_add_calls. cbn. lia.
Qed.

Lemma stamp_output x spec text inPath outPath wanted src w :
  reaches_loop x spec inPath outPath wanted src w ->
  let r := InplaceIncrementalStamp x spec text inPath outPath w in
  let saved := saved_bytes x (save_calls w) (save_calls r.2 - save_calls w) in
  files r.2 !! outPath = Some (saved ++ drop (length saved) src)
  /\ stream r.2 = None
  /\ forall p, p <> outPath -> files r.2 !! p = files w !! p.
Proof.
  intros Hreach. cbv zeta. rewrite (stamp_run _ _ _ _ _ _ _ _ Hreach).
  destruct (run_batches_files x wanted (u16 text) (batches (get_page_count x))
              outPath O src (at_loop outPath src w))
    as (Hle & Hfiles & _); [reflexivity | apply lookup_insert_eq | lia |].
  cbv zeta in Hfiles. rewrite save_calls_at_loop in *.
  assert (forall w' : World,
            files w' = <[outPath := write_at 0 (saved_bytes x (save_calls w)
                           (save_calls w' - save_calls w)) src]> (files (at_loop outPath src w)) ->
            files w' !! outPath
            = Some (saved_bytes x (save_calls w) (save_calls w' - save_calls w)
                    ++ drop (length (saved_bytes x (save_calls w)
                               (save_calls w' - save_calls w))) src)
            /\ forall p, p <> outPath -> files w' !! p = files w !! p) as Hgen.
  { intros w' ->. rewrite lookup_insert_eq, write_at_within, take_0 by lia.
    split; [reflexivity |]. intros p Hp.
    rewrite lookup_insert_ne by done. cbn. by rewrite lookup_insert_ne. }
  destruct (run_batches x wanted (u16 text) (batches (get_page_count x))
              (at_loop outPath src w)) as [[[] | | |] w'];
    cbn [fst snd] in *;
    rewrite ?save_calls_set_files, ?save_calls_add_calls;
    cbn [List.filter is_save length]; rewrite ?Nat.add_0_r;
    cbn [files stream set_files add_calls];
    destruct (Hgen w' Hfiles) as [H1 H2]; auto.
Qed.



(** X15: stamping a file onto itself loses it.  When the output path is
    the input path, opening the output empties the file before the copy
    reads it: nothing of the input is copied, and the file ends up holding
    the bytes of the saves only. *)
Theorem same_path_destroys_input x spec text path wanted src w :
  reaches_loop x spec path path wanted src w ->
  let r := InplaceIncrementalStamp x spec text path path w in
  src = []
  /\ files r.2 !! path
     = Some (saved_bytes x (save_calls w) (save_calls r.2 - save_calls w)).
Proof.
  intros Hreach.
  assert (src = []) as ->.
  { destruct Hreach as (_ & _ & _ & _ & Hin & _).
    rewrite lookup_insert_eq in Hin. by injection Hin. }
  destruct (stamp_output x spec text path path wanted [] w Hreach) as (Hout & _).
  cbv zeta in *. split; [reflexivity |].
  by rewrite Hout, drop_nil, app_nil_r.
Qed.

Lemma same_path_destroys_input_witness :
  let x := sample_doc 1 (fun _ => false) (fun _ => false) in
  let r := InplaceIncrementalStamp x "all" "t" "in.pdf" "in.pdf" disk in
  reaches_loop x "all" "in.pdf" "in.pdf" (all_pages 1) [] disk
  /\ files disk !! "in.pdf" = Some [x41; x42; x43; x44]
  /\ files r.2 !! "in.pdf" = Some [x78; x79].
Proof.
  assert (reaches_loop (sample_doc 1 (fun _ => false) (fun _ => false))
            "all" "in.pdf" "in.pdf" (all_pages 1) [] disk)
    as Hreach by (repeat split; by_eval).
  pose proof (same_path_destroys_input
                (sample_doc 1 (fun _ => false) (fun _ => false))
                "all" "t" "in.pdf" (all_pages 1) [] disk Hreach) as (_ & Hout).
  split; [exact Hreach |]. split; [by_eval |].
  rewrite Hout. vm_compute. reflexivity.
Defined.



(** ** Nothing but the output is written *)

Section Frame.

Context (out : string).

Lemma keeps_ret {A} (a : A) : keeps_to out (mret a : M A).
Proof. by intros w Hw. Qed.

Lemma keeps_lift {A} (o : outcome A) : keeps_to out (lift o).
Proof. by intros w Hw. Qed.

Lemma keeps_bind {A B} (m : M A) (k : A -> M B) :
  keeps_to out m -> (forall a, keeps_to out (k a)) -> keeps_to out (m ≫= k).
Proof.
  intros Hm Hk w Hw. unfold mbind, M_bind. destruct (Hm w Hw) as [Hs Hf].
  destruct (m w) as [[a | e | |] w1]; cbn [snd] in *; try done.
  destruct (Hk a w1 Hs) as [Hs' Hf']. split; [done |].
  intros p Hp. by rewrite Hf', Hf.
Qed.

Lemma keeps_call e : keeps_to out (call e).
Proof. by intros w Hw. Qed.

Lemma keeps_to_cerr line : keeps_to out (to_cerr line).
Proof. by intros w Hw. Qed.

Lemma keeps_to_cout line : keeps_to out (to_cout line).
Proof. by intros w Hw. Qed.

Lemma keeps_fwrite data : keeps_to out (fwrite data).
Proof.
  intros w Hw. unfold fwrite. destruct (stream w) as [[path pos] |] eqn:Hs; [| done].
  pose proof (Hw path pos Hs) as ->. cbn. split.
  - by intros p pos' [= <- _].
  - intros p Hp. by rewrite lookup_alter_ne.
Qed.

Lemma keeps_rewind : keeps_to out rewind.
Proof.
  intros w Hw. unfold rewind. destruct (stream w) as [[path pos] |] eqn:Hs; [| done].
  pose proof (Hw path pos Hs) as ->. cbn. split; [| done].
  by intros p pos' [= <- _].
Qed.

Lemma keeps_for_each {A} (l : list A) (body : A -> M unit) :
  (forall a, keeps_to out (body a)) -> keeps_to out (for_each l body).
Proof.
  intros Hb. induction l as [| a l IH]; cbn [for_each].
  - apply keeps_ret.
  - apply keeps_bind; [apply Hb | intros _; apply IH].
Qed.

Create HintDb keeps.

Hint Resolve keeps_ret keeps_lift keeps_call keeps_to_cerr keeps_to_cout
  keeps_fwrite keeps_rewind : keeps.

Ltac keeps :=
  repeat first
    [ apply keeps_bind; [| intros ?]
    | apply keeps_for_each; intros ?
    | solve [auto with keeps] ].

Lemma keeps_copy_loop fuel src : keeps_to out (copy_loop fuel src).
Proof.
  revert src. induction fuel as [| fuel IH]; intros src; cbn [copy_loop]; [keeps |].
  destruct (read_chunk BUF src) as [chunk rest]. keeps.
  destruct (_ =? BUF)%N; [apply IH | keeps].
Qed.

Lemma keeps_prepare_output inPath : keeps_to out (prepare_output inPath).
Proof.
  intros w Hw. unfold prepare_output. destruct (files w !! inPath) as [src |]; [| done].
  revert w Hw. change (keeps_to out (copy_loop (S (length src)) src;; rewind)).
  keeps. apply keeps_copy_loop.
Qed.

Lemma keeps_stamp_page wtxt p : keeps_to out (stamp_page wtxt p).
Proof. unfold stamp_page. keeps. Qed.

Lemma keeps_page_loop x wanted wtxt s e : keeps_to out (page_loop x wanted wtxt s e).
Proof.
  unfold page_loop. destruct (_ && _); keeps.
  unfold page_step. destruct (decide _); keeps.
  destruct (load_page x _); [apply keeps_stamp_page | keeps].
Qed.

Lemma keeps_save_incremental x : keeps_to out (save_incremental x).
Proof.
  intros w Hw. unfold save_incremental.
  destruct (save_with_version x (save_calls w)) as [blocks ok].
  revert w Hw.
  change (keeps_to out (for_each blocks fwrite;;
            call (FPDF_SaveWithVersion FPDF_INCREMENTAL 17 ok);; mret ok)).
  keeps.
Qed.

Lemma keeps_batch_loop fuel x wanted wtxt n start :
  keeps_to out (batch_loop fuel x wanted wtxt n start).
Proof.
  revert start. induction fuel as [| fuel IH]; intros start; cbn [batch_loop]; [keeps |].
  destruct (start <=? n); [| keeps].
  destruct (INT_MAX <? start + STEP); [keeps |].
  keeps; [apply keeps_page_loop | apply keeps_save_incremental |].
  match goal with |- context [negb ?b] => destruct b end; cbn [negb]; [apply IH | keeps].
Qed.

Lemma keeps_FileWriter_scope {A} x (body : M A) :
  keeps_to out body -> keeps_to out (FileWriter_scope x out body).
Proof.
  intros Hb w Hw. unfold FileWriter_scope. destruct (fopen_wb_ok x out); [| done].
  destruct (Hb (set_files (<[out := []]> (files w)) (Some (out, O)) w)) as [_ Hf].
  { by intros p pos [= <- _]. }
  destruct (body _) as [r w']. cbn [snd fclose files stream set_files] in *.
  split; [done |]. intros p Hp. by rewrite Hf, lookup_insert_ne.
Qed.

Lemma keeps_InplaceIncrementalStamp x spec text inPath :
  keeps_to out (InplaceIncrementalStamp x spec text inPath out).
Proof.
  unfold InplaceIncrementalStamp. keeps.
  destruct (negb _); [keeps |]. keeps.
  destruct (decide _); [keeps |].
  apply keeps_FileWriter_scope. keeps;
    [apply keeps_prepare_output | apply keeps_batch_loop |].
  destruct (negb _); keeps.
Qed.

End Frame.



(** X18: once the output has been opened it is closed again on every way
    out of the routine: normal return, the return after a failed save,
    and the exception of a failed copy all leave no stream open. *)
Theorem output_stream_closed_on_every_exit x spec text inPath outPath w :
  stream w = None ->
  stream (InplaceIncrementalStamp x spec text inPath outPath w).2 = None.
Proof.
  intros Hs. unfold InplaceIncrementalStamp.
  do 2 (erewrite bind_run by apply call_run).
  destruct (negb (load_custom_document x)).
  - do 2 (erewrite bind_run by reflexivity). exact Hs.
  - erewrite bind_run by apply call_run.
    destruct (parseSpec spec (get_page_count x)) as [wanted | e | |];
      try (unfold mbind, M_bind, lift; exact Hs).
    erewrite bind_run by reflexivity.
    destruct (decide (wanted = ∅)).
    + erewrite bind_run by reflexivity. exact Hs.
    + unfold FileWriter_scope. destruct (fopen_wb_ok x outPath); [| exact Hs].
      match goal with |- context [let '(_, _) := ?b in _] => destruct b end.
      reflexivity.
Qed.

Lemma output_stream_closed_on_every_exit_witness :
  stream disk = None
  /\ stream (InplaceIncrementalStamp
               (sample_doc 100 (fun _ => false) (fun k => Nat.eqb k 1))
               "all" "t" "in.pdf" "out.pdf" disk).2 = None.
Proof.
  exact (conj eq_refl
    (output_stream_closed_on_every_exit
       (sample_doc 100 (fun _ => false) (fun k => Nat.eqb k 1))
       "all" "t" "in.pdf" "out.pdf" disk eq_refl)).
Defined.

(** ** One page at a time, in page order *)

Section Preserves.

Context (P : World -> Prop).

Lemma preserves_ret {A} (a : A) : preserves P (mret a : M A).
Proof. by intros w Hw. Qed.

Lemma preserves_lift {A} (o : outcome A) : preserves P (lift o).
Proof. by intros w Hw. Qed.

Lemma preserves_bind {A B} (m : M A) (k : A -> M B) :
  preserves P m -> (forall a, preserves P (k a)) -> preserves P (m ≫= k).
Proof.
  intros Hm Hk w Hw. unfold mbind, M_bind. pose proof (Hm w Hw) as Hw1.
  destruct (m w) as [[a | e | |] w1]; cbn [snd] in *; try done.
  by apply Hk.
Qed.

Lemma preserves_for_each {A} (l : list A) (body : A -> M unit) :
  (forall a, preserves P (body a)) -> preserves P (for_each l body).
Proof.
  intros Hb. induction l as [| a l IH]; cbn [for_each].
  - apply preserves_ret.
  - apply preserves_bind; [apply Hb | intros _; apply IH].
Qed.

End Preserves.

Lemma page_state_app es1 es2 :
  page_state (es1 ++ es2) = foldl page_step_state (page_state es1) es2.
Proof. apply foldl_app. Qed.

Lemma pages_closed_calls es w :
  foldl page_step_state (Some None) es = Some None ->
  pages_closed w -> pages_closed (add_calls es w).
Proof.
  unfold pages_closed. cbn [calls add_calls]. intros Hes Hw.
  by rewrite page_state_app, Hw.
Qed.

Lemma pages_closed_same_calls (w w' : World) :
  calls w' = calls w -> pages_closed w -> pages_closed w'.
Proof. unfold pages_closed. by intros ->. Qed.

Lemma pages_closed_page_events x wanted wtxt p :
  foldl page_step_state (Some None) (page_events x wanted wtxt p) = Some None.
Proof.
  unfold page_events. destruct (decide (p ∈ wanted)); [| reflexivity].
  destruct (load_page x (p - 1)); [| reflexivity].
  unfold stamp_events.
  repeat (cbn [foldl page_step_state]; rewrite ?decide_True by reflexivity).
  reflexivity.
Qed.

Lemma closed_call e :
  page_step_state (Some None) e = Some None -> preserves pages_closed (call e).
Proof. intros He w Hw. by apply pages_closed_calls. Qed.

Lemma closed_to_cerr line : preserves pages_closed (to_cerr line).
Proof. by intros w Hw. Qed.

Lemma closed_fwrite data : preserves pages_closed (fwrite data).
Proof.
  intros w Hw. eapply pages_closed_same_calls; [| exact Hw].
  unfold fwrite. by destruct (stream w) as [[path pos] |].
Qed.

Lemma closed_rewind : preserves pages_closed rewind.
Proof.
  intros w Hw. eapply pages_closed_same_calls; [| exact Hw].
  unfold rewind. by destruct (stream w) as [[path pos] |].
Qed.

Lemma closed_copy_loop fuel src : preserves pages_closed (copy_loop fuel src).
Proof.
  revert src. induction fuel as [| fuel IH]; intros src; cbn [copy_loop];
    [apply preserves_lift |].
  destruct (read_chunk BUF src) as [chunk rest].
  apply preserves_bind; [apply closed_fwrite | intros _].
  destruct (_ =? BUF)%N; [apply IH | apply preserves_ret].
Qed.

Lemma closed_prepare_output inPath : preserves pages_closed (prepare_output inPath).
Proof.
  intros w Hw. unfold prepare_output. destruct (files w !! inPath) as [src |]; [| done].
  revert w Hw. change (preserves pages_closed (copy_loop (S (length src)) src;; rewind)).
  apply preserves_bind; [apply closed_copy_loop | intros _; apply closed_rewind].
Qed.

Lemma closed_page_loop x wanted wtxt s e :
  preserves pages_closed (page_loop x wanted wtxt s e).
Proof.
  unfold page_loop. destruct (_ && _); [apply preserves_lift |].
  apply preserves_for_each. intros p w Hw. rewrite page_step_run.
  apply pages_closed_calls; [apply pages_closed_page_events | exact Hw].
Qed.

Lemma closed_save_incremental x : preserves pages_closed (save_incremental x).
Proof.
  intros w Hw. rewrite save_incremental_run. cbv zeta. cbn [snd].
  apply pages_closed_calls; [reflexivity |].
  eapply pages_closed_same_calls; [| exact Hw]. apply write_blocks_frame.
Qed.

Lemma closed_batch_loop fuel x wanted wtxt n start :
  preserves pages_closed (batch_loop fuel x wanted wtxt n start).
Proof.
  revert start. induction fuel as [| fuel IH]; intros start; cbn [batch_loop];
    [apply preserves_lift |].
  destruct (start <=? n); [| apply preserves_ret].
  destruct (INT_MAX <? start + STEP); [apply preserves_lift |].
  apply preserves_bind; [apply closed_page_loop | intros _].
  apply preserves_bind; [apply closed_save_incremental | intros ok].
  destruct ok; cbn [negb]; [apply IH |].
  apply preserves_bind; [apply closed_to_cerr | intros _; apply preserves_ret].
Qed.

Lemma closed_FileWriter_scope {A} x out (body : M A) :
  preserves pages_closed body -> preserves pages_closed (FileWriter_scope x out body).
Proof.
  intros Hb w Hw. unfold FileWriter_scope. destruct (fopen_wb_ok x out); [| done].
  pose proof (Hb (set_files (<[out := []]> (files w)) (Some (out, O)) w) Hw) as H.
  by destruct (body _) as [r w'].
Qed.

Lemma closed_InplaceIncrementalStamp x spec text inPath outPath :
  preserves pages_closed (InplaceIncrementalStamp x spec text inPath outPath).
Proof.
  unfold InplaceIncrementalStamp.
  apply preserves_bind; [by apply closed_call | intros _].
  apply preserves_bind; [by apply closed_call | intros _].
  destruct (negb _).
  - apply preserves_bind; [by apply closed_call | intros _].
    apply preserves_bind; [apply closed_to_cerr | intros _; apply preserves_ret].
  - apply preserves_bind; [by apply closed_call | intros _].
    apply preserves_bind; [apply preserves_lift | intros wanted].
    destruct (decide _).
    + apply preserves_bind; [apply closed_to_cerr | intros _; apply preserves_ret].
    + apply closed_FileWriter_scope.
      apply preserves_bind; [apply closed_prepare_output | intros _].
      apply preserves_bind; [apply closed_batch_loop | intros done].
      destruct done; cbn [negb]; [| apply preserves_ret].
      apply preserves_bind; [by apply closed_call | intros _].
      apply preserves_bind; [by apply closed_call | intros _; apply preserves_ret].
Qed.

(** X19: one page at a time.  In every run, however it ends, a page is
    loaded only when no page is open, every page that loaded is closed
    before the next one is asked for, and no page is open when the
    document is saved, when it is closed, or when the routine is left. *)
Theorem one_page_at_a_time x spec text inPath outPath w :
  page_state (calls w) = Some None ->
  page_state (calls (InplaceIncrementalStamp x spec text inPath outPath w).2)
  = Some None.
Proof. apply closed_InplaceIncrementalStamp. Qed.

Lemma one_page_at_a_time_witness :
  page_state (calls disk) = Some None
  /\ page_state (calls (InplaceIncrementalStamp
                          (sample_doc 100 (fun i => i =? 1) (fun k => Nat.eqb k 1))
                          "1-50" "t" "in.pdf" "out.pdf" disk).2) = Some None.
Proof.
  exact (conj eq_refl
    (one_page_at_a_time (sample_doc 100 (fun i => i =? 1) (fun k => Nat.eqb k 1))
       "1-50" "t" "in.pdf" "out.pdf" disk eq_refl)).
Defined.

Section Order.

Context (x : Extern) (wanted : gset Z) (wtxt : list Z).

Lemma asked_page_events p :
  asked_pages (page_events x wanted wtxt p)
  = if bool_decide (p ∈ wanted) then [p] else [].
Proof.
  unfold page_events. destruct (decide (p ∈ wanted)).
  - rewrite bool_decide_eq_true_2 by done.
    destruct (load_page x (p - 1)); cbn; by rewrite Z.sub_add.
  - by rewrite bool_decide_eq_false_2.
Qed.

Lemma stamped_page_events p :
  stamped_pages (page_events x wanted wtxt p)
  = if bool_decide (p ∈ wanted) && load_page x (p - 1) then [p] else [].
Proof.
  unfold page_events. destruct (decide (p ∈ wanted)).
  - rewrite bool_decide_eq_true_2 by done.
    destruct (load_page x (p - 1)); cbn; [by rewrite Z.sub_add | reflexivity].
  - by rewrite bool_decide_eq_false_2.
Qed.

Lemma asked_batches ok bs :
  asked_pages (bs ≫= batch_events x wanted wtxt ok)
  = List.filter (fun p => bool_decide (p ∈ wanted)) (bs ≫= pages_of).
Proof.
  induction bs as [| b bs IH]; [reflexivity |].
  rewrite !bind_cons, List.filter_app. unfold asked_pages in *.
  rewrite omap_app, IH. f_equal.
  unfold batch_events, batch_page_events. rewrite omap_app. cbn [omap].
  rewrite app_nil_r. induction (pages_of b) as [| p l IHl]; [reflexivity |].
  rewrite bind_cons, omap_app, IHl. cbn [List.filter].
  fold (asked_pages (page_events x wanted wtxt p)). rewrite asked_page_events.
  by destruct (bool_decide (p ∈ wanted)).
Qed.

Lemma stamped_batches ok bs :
  stamped_pages (bs ≫= batch_events x wanted wtxt ok)
  = List.filter (fun p => bool_decide (p ∈ wanted) && load_page x (p - 1))
                (bs ≫= pages_of).
Proof.
  induction bs as [| b bs IH]; [reflexivity |].
  rewrite !bind_cons, List.filter_app. unfold stamped_pages in *.
  rewrite omap_app, IH. f_equal.
  unfold batch_events, batch_page_events. rewrite omap_app. cbn [omap].
  rewrite app_nil_r. induction (pages_of b) as [| p l IHl]; [reflexivity |].
  rewrite bind_cons, omap_app, IHl. cbn [List.filter].
  fold (stamped_pages (page_events x wanted wtxt p)). rewrite stamped_page_events.
  by destruct (bool_decide (p ∈ wanted) && load_page x (p - 1)).
Qed.

End Order.

(** X20: pages are handled in page order.  In a complete run the library
    is asked for the selected pages, each once, in increasing order, and
    for no other page; the pages stamped are those of them that loaded,
    in the same order. *)
Theorem pages_handled_in_order x spec text inPath outPath wanted src w :
  reaches_loop x spec inPath outPath wanted src w ->
  (forall k, (save_with_version x k).2 = true) ->
  calls w = [] ->
  let n := get_page_count x in
  let es := calls (InplaceIncrementalStamp x spec text inPath outPath w).2 in
  asked_pages es = List.filter (fun p => bool_decide (p ∈ wanted)) (seqZ 1 n)
  /\ stamped_pages es
     = List.filter (fun p => bool_decide (p ∈ wanted) && load_page x (p - 1))
                   (seqZ 1 n)
  /\ (forall p, p ∈ asked_pages es <-> p ∈ wanted).
Proof.
  intros Hreach Hok Hw n es.
  destruct (stamp_run_ok x spec text inPath outPath wanted src w Hreach Hok)
    as (_ & Hcalls & _).
  assert (asked_pages es = List.filter (fun p => bool_decide (p ∈ wanted)) (seqZ 1 n))
    as Hasked.
  { subst es. rewrite Hcalls, Hw. unfold asked_pages. rewrite app_nil_l, !omap_app.
    cbn [omap prologue epilogue]. rewrite app_nil_l, app_nil_r.
    fold (asked_pages (batches (get_page_count x) ≫= batch_events x wanted (u16 text) true)).
    by rewrite asked_batches, batches_partition. }
  split; [exact Hasked |]. split.
  - subst es. rewrite Hcalls, Hw. unfold stamped_pages. rewrite app_nil_l, !omap_app.
    cbn [omap prologue epilogue]. rewrite app_nil_l, app_nil_r.
    fold (stamped_pages (batches (get_page_count x) ≫= batch_events x wanted (u16 text) true)).
    by rewrite stamped_batches, batches_partition.
  - intros p. rewrite Hasked, list_elem_of_In, List.filter_In, <- list_elem_of_In.
    rewrite bool_decide_eq_true, elem_of_seqZ. split; [tauto |].
    intros Hp. split; [| exact Hp].
    destruct Hreach as (_ & Hparse & _).
    pose proof (parseSpec_bounds _ _ _ Hparse p Hp). subst n. lia.
Qed.

Lemma pages_handled_in_order_witness :
  let x := sample_doc 100 (fun i => i =? 41) (fun _ => false) in
  let es := calls (InplaceIncrementalStamp x "42,7,41-43" "t" "in.pdf" "out.pdf" disk).2 in
  reaches_loop x "42,7,41-43" "in.pdf" "out.pdf" {[ 7; 41; 42; 43 ]}
    [x41; x42; x43; x44] disk
  /\ (forall k, (save_with_version x k).2 = true)
  /\ calls disk = []
  /\ asked_pages es = [7; 41; 42; 43]
  /\ stamped_pages es = [7; 41; 43].
Proof.
  assert (reaches_loop (sample_doc 100 (fun i => i =? 41) (fun _ => false))
            "42,7,41-43" "in.pdf" "out.pdf" {[ 7; 41; 42; 43 ]}
            [x41; x42; x43; x44] disk)
    as Hreach by (repeat split; by_eval).
  pose proof (pages_handled_in_order
                (sample_doc 100 (fun i => i =? 41) (fun _ => false))
                "42,7,41-43" "t" "in.pdf" "out.pdf" {[ 7; 41; 42; 43 ]}
                [x41; x42; x43; x44] disk Hreach (fun _ => eq_refl) eq_refl)
    as (Hasked & Hstamped & _).
  split; [exact Hreach |]. split; [exact (fun _ => eq_refl) |].
  split; [reflexivity |]. split.
  - rewrite Hasked. vm_compute. reflexivity.
  - rewrite Hstamped. vm_compute. reflexivity.
Defined.

(** ** The command line: ways to fail, and the one way to succeed *)

Lemma main_run_result x inPath spec outPath text w o w' :
  is_Some (files w !! inPath) ->
  InplaceIncrementalStamp x spec text inPath outPath w = (o, w') ->
  main x (argv inPath spec outPath text) w =
    match o with
    | Ret true => (Ret 0, add_cout (wrote +:+ outPath) w')
    | Ret false => (Ret 1, w')
    | Throw e => (Ret 1, add_cerr (what e) w')
    | Undefined => (Undefined, w')
    | OutOfFuel => (OutOfFuel, w')
    end.
Proof. intros Hin Hrun. rewrite (main_run _ _ _ _ _ _ Hin), Hrun. reflexivity. Qed.

(** X21: a spec that does not parse ends the run before the output is
    touched: the exception of [std::stoi] leaves the routine, [main]
    prints its message and exits with 1; the library was initialised and
    the document loaded, and no file was created or written. *)
Theorem spec_error_ends_run_before_output x inPath spec outPath text w e :
  is_Some (files w !! inPath) ->
  load_custom_document x = true ->
  parseSpec spec (get_page_count x) = Throw e ->
  main x (argv inPath spec outPath text) w
  = (Ret 1, add_cerr (what e) (add_calls prologue w)).
Proof.
  intros Hin Hload Hparse.
  rewrite (main_run_result x inPath spec outPath text w
             (Throw e) (add_calls prologue w) Hin); [reflexivity |].
  unfold InplaceIncrementalStamp. rewrite Hload. cbn [negb].
  do 3 (erewrite bind_run by apply call_run). rewrite !add_calls_app.
  rewrite Hparse. reflexivity.
Qed.

Lemma spec_error_ends_run_before_output_witness :
  let x := sample_doc 10 (fun _ => false) (fun _ => false) in
  is_Some (files disk !! "in.pdf")
  /\ load_custom_document x = true
  /\ parseSpec "3,x" (get_page_count x) = Throw invalid_argument
  /\ main x (argv "in.pdf" "3,x" "out.pdf" "t") disk
     = (Ret 1, add_cerr "stoi" (add_calls prologue disk)).
Proof.
  assert (is_Some (files disk !! "in.pdf")) as Hin by by_eval.
  assert (parseSpec "3,x" 10 = Throw invalid_argument) as Hp by by_eval.
  exact (conj Hin (conj eq_refl (conj Hp
    (spec_error_ends_run_before_output
       (sample_doc 10 (fun _ => false) (fun _ => false))
       "in.pdf" "3,x" "out.pdf" "t" disk invalid_argument Hin eq_refl Hp)))).
Defined.

(** X22: an input that cannot be opened ends the run at once: the
    exception of the [FileReader] is caught, "open <path>" is printed, the
    exit status is 1, and neither the library nor any file was touched. *)
Theorem missing_input_ends_run_at_once x prog inPath rest w e :
  FileReader_open (files w) inPath = Throw e ->
  e = runtime_error ("open " +:+ inPath)
  /\ main x (prog :: inPath :: rest) w = (Ret 1, add_cerr ("open " +:+ inPath) w).
Proof.
  unfold FileReader_open, main. destruct (files w !! inPath); [discriminate |].
  intros [= <-]. split; reflexivity.
Qed.

Lemma missing_input_ends_run_at_once_witness :
  FileReader_open (files disk) "none.pdf" = Throw (runtime_error "open none.pdf")
  /\ main (sample_doc 1 (fun _ => false) (fun _ => false))
          ["stamp"; "none.pdf"] disk
     = (Ret 1, add_cerr "open none.pdf" disk).
Proof.
  split; [reflexivity |].
  exact (proj2 (missing_input_ends_run_at_once
                  (sample_doc 1 (fun _ => false) (fun _ => false))
                  "stamp" "none.pdf" [] disk _ eq_refl)).
Defined.

(** X23: an output that cannot be opened ends the run with "open out"
    and exit status 1 after the document was loaded and the spec parsed;
    no file has changed. *)
Theorem unopenable_output_ends_run x inPath spec outPath text w wanted :
  is_Some (files w !! inPath) ->
  load_custom_document x = true ->
  parseSpec spec (get_page_count x) = Ret wanted -> wanted <> ∅ ->
  fopen_wb_ok x outPath = false ->
  main x (argv inPath spec outPath text) w
  = (Ret 1, add_cerr "open out" (add_calls prologue w)).
Proof.
  intros Hin Hload Hparse Hne Hopen.
  rewrite (main_run_result x inPath spec outPath text w
             (Throw (runtime_error "open out")) (add_calls prologue w) Hin);
    [reflexivity |].
  unfold InplaceIncrementalStamp. rewrite Hload. cbn [negb].
  do 3 (erewrite bind_run by apply call_run). rewrite !add_calls_app.
  rewrite Hparse. erewrite bind_run by reflexivity.
  destruct (decide (wanted = ∅)); [done |].
  unfold FileWriter_scope. by rewrite Hopen.
Qed.

Lemma unopenable_output_ends_run_witness :
  let x := {| load_custom_document := true; get_last_error := 0;
              get_page_count := 10; load_page := fun _ => true;
              save_with_version := fun _ => ([], true);
              fopen_wb_ok := fun _ => false |} in
  main x (argv "in.pdf" "all" "out.pdf" "t") disk
  = (Ret 1, add_cerr "open out" (add_calls prologue disk)).
Proof.
  apply (unopenable_output_ends_run _ "in.pdf" "all" "out.pdf" "t" disk (all_pages 10));
    by_eval.
Defined.

(** X24: a document that does not load ends the run with "Load err"
    followed by the library's error code, exit status 1; the library was
    asked for the code, and no file has changed. *)
Theorem load_failure_reports_code x inPath spec outPath text w :
  is_Some (files w !! inPath) ->
  load_custom_document x = false ->
  main x (argv inPath spec outPath text) w
  = (Ret 1,
     add_cerr ("Load err " +:+ show_Z (get_last_error x))
       (add_calls [FPDF_InitLibraryWithConfig; FPDF_LoadCustomDocument false;
                   FPDF_GetLastError] w)).
Proof.
  intros Hin Hload.
  rewrite (main_run_result x inPath spec outPath text w (Ret false)
             (add_cerr ("Load err " +:+ show_Z (get_last_error x))
                (add_calls [FPDF_InitLibraryWithConfig; FPDF_LoadCustomDocument false;
                            FPDF_GetLastError] w)) Hin); [reflexivity |].
  unfold InplaceIncrementalStamp. rewrite Hload. cbn [negb].
  do 3 (erewrite bind_run by apply call_run). rewrite !add_calls_app.
  erewrite bind_run by reflexivity. reflexivity.
Qed.

Lemma load_failure_reports_code_witness :
  main unloadable_doc (argv "in.pdf" "all" "out.pdf" "t") disk
  = (Ret 1,
     add_cerr "Load err 3"
       (add_calls [FPDF_InitLibraryWithConfig; FPDF_LoadCustomDocument false;
                   FPDF_GetLastError] disk)).
Proof.
  apply (load_failure_reports_code unloadable_doc "in.pdf" "all" "out.pdf" "t" disk);
    by_eval.
Defined.

Section Success.

Context (x : Extern) (wanted : gset Z) (wtxt : list Z).

Lemma run_batches_true_iff bs w :
  (run_batches x wanted wtxt bs w).1 = Ret true
  <-> forall j, (j < length bs)%nat ->
        (save_with_version x (save_calls w + j)).2 = true.
Proof.
  revert w. induction bs as [| b bs IH]; intros w.
  - cbn. split; [intros _ j Hj; lia | done].
  - cbn [run_batches].
    assert (save_calls (add_calls (batch_page_events x wanted wtxt b) w) = save_calls w)
      as Hsc by (rewrite save_calls_add_calls, filter_save_batch_page_events;
                 cbn; lia).
    rewrite Hsc. destruct (save_with_version x (save_calls w)).2 eqn:Hok.
    + rewrite IH, save_calls_add_calls, save_calls_write_blocks, Hsc.
      cbn [List.filter is_save length]. split.
      * intros H [| j] Hj; [by rewrite Nat.add_0_r |].
        replace (save_calls w + S j)%nat with (save_calls w + 1 + j)%nat by lia.
        apply H. cbn in Hj. lia.
      * intros H j Hj.
        replace (save_calls w + 1 + j)%nat with (save_calls w + S j)%nat by lia.
        apply H. cbn. lia.
    + cbn [fst]. split; [discriminate |]. intros H.
      specialize (H O ltac:(cbn; lia)). rewrite Nat.add_0_r in H. congruence.
Qed.

Lemma run_batches_bool bs w :
  (run_batches x wanted wtxt bs w).1 = Ret true
  \/ (run_batches x wanted wtxt bs w).1 = Ret false.
Proof.
  revert w. induction bs as [| b bs IH]; intros w; cbn [run_batches]; [by left |].
  destruct (save_with_version x _).2; [apply IH | by right].
Qed.

End Success.

(** X25: the exit status is 0 exactly when the save of every batch
    succeeds: for a run that gets to the batch loop, [main] returns 0 if
    each of the ceil(pageCount / 40) saves reports success, and 1 as soon
    as one of them does not. *)
Theorem success_iff_every_save_succeeds
  x spec text inPath outPath wanted src w :
  reaches_loop x spec inPath outPath wanted src w ->
  is_Some (files w !! inPath) ->
  let exit := (main x (argv inPath spec outPath text) w).1 in
  (exit = Ret 0 \/ exit = Ret 1)
  /\ (exit = Ret 0
      <-> forall k, (k < num_batches (get_page_count x))%nat ->
            (save_with_version x (save_calls w + k)).2 = true).
Proof.
  intros Hreach Hin. cbv zeta.
  rewrite (main_run _ _ _ _ _ _ Hin), (stamp_run _ _ _ _ _ _ _ _ Hreach).
  pose proof (run_batches_true_iff x wanted (u16 text) (batches (get_page_count x))
                (at_loop outPath src w)) as Hiff.
  rewrite save_calls_at_loop, length_batches in Hiff.
  destruct (run_batches_bool x wanted (u16 text) (batches (get_page_count x))
              (at_loop outPath src w)) as [Hr | Hr];
    destruct (run_batches _ _ _ _ _) as [o w']; cbn [fst] in *; subst o; cbn [fst].
  - split; [by left |]. split; [intros _; by apply Hiff | done].
  - split; [by right |]. split; [discriminate |].
    intros H. apply Hiff in H. discriminate.
Qed.

Lemma success_iff_every_save_succeeds_witness :
  let x := sample_doc 100 (fun _ => false) (fun k => Nat.eqb k 2) in
  let exit := (main x (argv "in.pdf" "all" "out.pdf" "t") disk).1 in
  reaches_loop x "all" "in.pdf" "out.pdf" (all_pages 100) [x41; x42; x43; x44] disk
  /\ is_Some (files disk !! "in.pdf")
  /\ (exit = Ret 0 \/ exit = Ret 1)
  /\ (exit = Ret 0
      <-> forall k, (k < num_batches (get_page_count x))%nat ->
            (save_with_version x (save_calls disk + k)).2 = true).
Proof.
  assert (reaches_loop (sample_doc 100 (fun _ => false) (fun k => Nat.eqb k 2))
            "all" "in.pdf" "out.pdf" (all_pages 100) [x41; x42; x43; x44] disk)
    as Hreach by (repeat split; by_eval).
  assert (is_Some (files disk !! "in.pdf")) as Hin by by_eval.
  exact (conj Hreach (conj Hin
    (success_iff_every_save_succeeds
       (sample_doc 100 (fun _ => false) (fun k => Nat.eqb k 2))
       "all" "t" "in.pdf" "out.pdf" (all_pages 100) [x41; x42; x43; x44] disk
       Hreach Hin))).
Defined.

(** ** The stamp text *)

Lemma length_list_ascii_of_string s :
  length (list_ascii_of_string s) = String.length s.
Proof. induction s as [| c s IH]; cbn; [reflexivity | by rewrite IH]. Qed.

(** X26: [u16] widens bytes, it does not decode them: the stamp text has
    one code unit per byte of the argument, every unit is below 256, and
    different arguments give different texts. *)
Theorem u16_widens_bytes :
  (forall s, length (u16 s) = String.length s
             /\ Forall (fun u => 0 <= u < 256) (u16 s))
  /\ (forall s1 s2, u16 s1 = u16 s2 -> s1 = s2).
Proof.
  split.
  - intros s. unfold u16. rewrite length_fmap, length_list_ascii_of_string.
    split; [reflexivity |]. apply Forall_fmap, Forall_forall. intros c _. cbn.
    pose proof (nat_ascii_bounded c). lia.
  - intros s1. unfold u16. induction s1 as [| c1 s1 IH]; intros [| c2 s2];
      cbn; try discriminate; [reflexivity |].
    intros [= Hc Hs]. f_equal; [| by apply IH].
    apply Nat2Z.inj in Hc.
    by rewrite <- (ascii_nat_embedding c1), <- (ascii_nat_embedding c2), Hc.
Qed.

Lemma u16_widens_bytes_witness :
  length (u16 "Stamped by Asem") = String.length "Stamped by Asem"
  /\ Forall (fun u => 0 <= u < 256) (u16 "Stamped by Asem")
  /\ (u16 "ab" = u16 "ab" -> "ab" = "ab").
Proof.
  destruct u16_widens_bytes as [Hlen Hinj].
  destruct (Hlen "Stamped by Asem") as [H1 H2].
  exact (conj H1 (conj H2 (Hinj "ab" "ab"))).
Defined.

(** ** A spec that selects nothing *)

(** X27: whenever the spec parses to the empty set (the empty spec, "all"
    on a document without pages, or only pages outside the document), the
    run ends with "no pages matched" and exit status 1 before the output
    is opened: no file is created or written, and the document is left
    loaded. *)
Theorem empty_selection_ends_run x inPath spec outPath text w :
  is_Some (files w !! inPath) ->
  load_custom_document x = true ->
  parseSpec spec (get_page_count x) = Ret ∅ ->
  main x (argv inPath spec outPath text) w
  = (Ret 1, add_cerr "no pages matched" (add_calls prologue w)).
Proof.
  intros Hin Hload Hparse.
  rewrite (main_run _ _ _ _ _ _ Hin).
  by rewrite (stamp_empty_selection _ _ _ _ _ _ Hload Hparse).
Qed.

Lemma empty_selection_ends_run_witness :
  let x := sample_doc 10 (fun _ => false) (fun _ => false) in
  is_Some (files disk !! "in.pdf")
  /\ load_custom_document x = true
  /\ parseSpec "50-60,0,11" (get_page_count x) = Ret ∅
  /\ main x (argv "in.pdf" "50-60,0,11" "out.pdf" "t") disk
     = (Ret 1, add_cerr "no pages matched" (add_calls prologue disk)).
Proof.
  assert (is_Some (files disk !! "in.pdf")) as Hin by by_eval.
  assert (parseSpec "50-60,0,11" 10 = Ret ∅) as Hp by by_eval.
  exact (conj Hin (conj eq_refl (conj Hp
    (empty_selection_ends_run (sample_doc 10 (fun _ => false) (fun _ => false))
       "in.pdf" "50-60,0,11" "out.pdf" "t" disk Hin eq_refl Hp)))).
Defined.
